(** * A shallow embedding of [contraction_fix/fixer.py]

    Text is modelled as Rocq [string] (8-bit characters, covering the ASCII
    range the source's literals live in).  Python dicts are association lists
    that keep insertion order, as CPython's [dict] does.  A Python call that
    can raise returns [option]: [None] is the exception. *)

From Stdlib Require Import Ascii String List Bool Arith Lia.
From Stdlib Require Import Sorting.Sorted.
Import ListNotations.
Open Scope list_scope.
Open Scope string_scope.

(** ** Characters and the [str] methods the source calls *)

Definition is_upper_c (c : ascii) : bool :=
  let n := nat_of_ascii c in Nat.leb 65 n && Nat.leb n 90.
Definition is_lower_c (c : ascii) : bool :=
  let n := nat_of_ascii c in Nat.leb 97 n && Nat.leb n 122.
Definition is_digit_c (c : ascii) : bool :=
  let n := nat_of_ascii c in Nat.leb 48 n && Nat.leb n 57.

(** Regex [\w] on the characters of the model. *)
Definition is_word_c (c : ascii) : bool :=
  is_upper_c c || is_lower_c c || is_digit_c c || Ascii.eqb c "_".

Definition lower_c (c : ascii) : ascii :=
  if is_upper_c c then ascii_of_nat (nat_of_ascii c + 32) else c.
Definition upper_c (c : ascii) : ascii :=
  if is_lower_c c then ascii_of_nat (nat_of_ascii c - 32) else c.

Fixpoint str_map (f : ascii -> ascii) (s : string) : string :=
  match s with
  | EmptyString => EmptyString
  | String c r => String (f c) (str_map f r)
  end.

(** [s.lower()] and [s.upper()]. *)
Definition str_lower := str_map lower_c.
Definition str_upper := str_map upper_c.

Fixpoint str_exists (p : ascii -> bool) (s : string) : bool :=
  match s with
  | EmptyString => false
  | String c r => p c || str_exists p r
  end.

(** [s.isupper()]: some cased character, and none of them lower-case. *)
Definition py_isupper (s : string) : bool :=
  str_exists is_upper_c s && negb (str_exists is_lower_c s).

(** [s.capitalize()]: first character upper-cased, the rest lower-cased. *)
Definition capitalize (s : string) : string :=
  match s with
  | EmptyString => EmptyString
  | String c r => String (upper_c c) (str_lower r)
  end.

(** [sub in s] for a one-character [sub]. *)
Definition str_has (a : ascii) (s : string) : bool :=
  str_exists (Ascii.eqb a) s.

(** [s.replace(a, b)] for one-character [a] and [b]. *)
Definition replace_char (a b : ascii) (s : string) : string :=
  str_map (fun c => if Ascii.eqb c a then b else c) s.

Fixpoint str_drop (n : nat) (s : string) : string :=
  match n, s with
  | 0, _ => s
  | S n', String _ r => str_drop n' r
  | S _, EmptyString => EmptyString
  end.

(** [s[a:b]] for [a <= b]. *)
Definition str_slice (s : string) (a b : nat) : string :=
  substring a (b - a) s.

(** [s.endswith(suf)]. *)
Definition ends_with (suf s : string) : bool :=
  Nat.leb (String.length suf) (String.length s) &&
  String.eqb (str_drop (String.length s - String.length suf) s) suf.

(** [s.startswith(pre)]. *)
Definition starts_with (pre s : string) : bool := String.prefix pre s.

Definition in_set (x : string) (l : list string) : bool :=
  existsb (String.eqb x) l.

(** ** Python dicts as insertion-ordered association lists *)

Definition dict := list (string * string).

Fixpoint dict_get (k : string) (d : dict) : option string :=
  match d with
  | [] => None
  | (k', v) :: r => if String.eqb k k' then Some v else dict_get k r
  end.

(** [d[k] = v]: overwrite in place, or append a new key. *)
Fixpoint dict_set (k v : string) (d : dict) : dict :=
  match d with
  | [] => [(k, v)]
  | (k', v') :: r =>
      if String.eqb k k' then (k, v) :: r else (k', v') :: dict_set k v r
  end.

(** [d.pop(k, None)] / [del d[k]]. *)
Fixpoint dict_pop (k : string) (d : dict) : dict :=
  match d with
  | [] => []
  | (k', v') :: r => if String.eqb k k' then r else (k', v') :: dict_pop k r
  end.

(** [d.update(e)]. *)
Definition dict_update (d e : dict) : dict :=
  fold_left (fun (acc : dict) (kv : string * string) => dict_set (fst kv) (snd kv) acc) e d.

Definition dict_keys (d : dict) : list string := map fst d.

(** ** Class constants of [ContractionFixer] *)

Definition CONTRACTION_BASES : list string :=
  ["he"; "she"; "it"; "what"; "who"; "that"; "there"; "here"; "where";
   "when"; "why"; "how"; "this"; "everyone"; "somebody"; "someone";
   "something"; "nobody"; "let"].

Definition TIME_WORDS : list string :=
  ["today"; "tomorrow"; "tonight"; "morning"; "evening"; "afternoon";
   "week"; "month"; "year"; "century"; "monday"; "tuesday"; "wednesday";
   "thursday"; "friday"; "saturday"; "sunday"].

Definition MONTHS : list string :=
  ["january"; "february"; "march"; "april"; "june"; "july";
   "august"; "september"; "october"; "november"; "december"].

(** [month[:3] + "."] *)
Definition month_abbrev (m : string) : string := substring 0 3 m ++ ".".

Definition SAFE_CONTRACTIONS : list string :=
  ["am not"; "are not"; "cannot"; "could not"; "did not"; "do not"; "does not";
   "had not"; "has not"; "have not"; "he is"; "he will"; "he would"; "here is";
   "how is"; "is not"; "it is"; "it will"; "it would"; "let us"; "must not";
   "shall not"; "she is"; "she will"; "she would"; "should not"; "that is";
   "that will"; "that would"; "there is"; "there will"; "there would";
   "they are"; "they have"; "they will"; "they would"; "was not"; "we are";
   "we have"; "we will"; "we would"; "were not"; "what is"; "what will";
   "where is"; "who is"; "who will"; "will not"; "would not"; "you are";
   "you have"; "you will"; "you would"; "I am"; "I have"; "I will"; "I would";
   "you all"; "could have"; "would have"; "should have"; "might have"; "must have";
   "would have"; "I would have"; "going to"; "want to"; "got to"; "kind of"].

Definition SAFE_INFORMAL : dict :=
  [("going", "goin'"); ("doing", "doin'"); ("nothing", "nothin'")].

(** ** [_is_contraction_s_optimized] *)

Definition is_contraction_s (word : string) : bool :=
  if Nat.ltb (String.length word) 3 then false else
  let base := str_lower (substring 0 (String.length word - 2) word) in
  if in_set base CONTRACTION_BASES then true
  else if in_set base TIME_WORDS then true
  else if ends_with "s" base || ends_with "x" base || ends_with "z" base
          || ends_with "ch" base || ends_with "sh" base then false
  else match String.get 0 word with
       | Some c => negb (is_upper_c c)
       | None => false
       end.

(** ** The [pattern] property: key sorting, partitions, one regex attempt *)

(** The sort key [(-len(x), x)]. *)
Definition key_leb (a b : string) : bool :=
  Nat.ltb (String.length b) (String.length a)
  || (Nat.eqb (String.length a) (String.length b) && String.leb a b).

Fixpoint insert_key (x : string) (l : list string) : list string :=
  match l with
  | [] => [x]
  | y :: r => if key_leb x y then x :: y :: r else y :: insert_key x r
  end.

(** [sorted(keys, key=lambda x: (-len(x), x))] *)
Fixpoint sort_keys (l : list string) : list string :=
  match l with
  | [] => []
  | x :: r => insert_key x (sort_keys r)
  end.

(** [if "'" in key or "'" in key] *)
Definition has_apos (k : string) : bool := str_has "'" k || str_has "'" k.

(** The compiled alternation: apostrophe-bearing keys first, then the
    plain ones, each in sorted order.  With no keys at all the source compiles a pattern that never matches. *)
Record pattern := mk_pattern { apos_alts : list string; word_alts : list string }.

Definition compile_pattern (keys : list string) : pattern :=
  let sorted := sort_keys keys in
  mk_pattern (filter has_apos sorted) (filter (fun k => negb (has_apos k)) sorted).

Definition word_at (t : string) (i : nat) : bool :=
  match String.get i t with Some c => is_word_c c | None => false end.

Definition word_before (t : string) (p : nat) : bool :=
  match p with 0 => false | S q => word_at t q end.

(** [\b] at position [p]. *)
Definition boundary (t : string) (p : nat) : bool :=
  xorb (word_before t p) (word_at t p).

Definition ci_eq (a b : ascii) : bool := Ascii.eqb (lower_c a) (lower_c b).

(** The literal [k] under [re.IGNORECASE] at the start of [t]. *)
Fixpoint prefix_ci (k t : string) : bool :=
  match k, t with
  | EmptyString, _ => true
  | String a k', String b t' => ci_eq a b && prefix_ci k' t'
  | String _ _, EmptyString => false
  end.

Definition occurs_ci (k t : string) (p : nat) : bool := prefix_ci k (str_drop p t).

(** [(?<!\w)k(?!\w)] at [p]. *)
Definition apos_ok (t : string) (p : nat) (k : string) : bool :=
  negb (word_before t p) && occurs_ci k t p && negb (word_at t (p + String.length k)).

(** [\bk\b] at [p]. *)
Definition word_ok (t : string) (p : nat) (k : string) : bool :=
  boundary t p && occurs_ci k t p && boundary t (p + String.length k).

Fixpoint first_ok (ok : string -> bool) (l : list string) : option string :=
  match l with
  | [] => None
  | k :: r => if ok k then Some k else first_ok ok r
  end.

(** One attempt of the compiled pattern at position [p]: the backtracking
    engine takes the first alternative, in pattern order, that succeeds. *)
Definition match_at (pat : pattern) (t : string) (p : nat) : option string :=
  match first_ok (apos_ok t p) (apos_alts pat) with
  | Some k => Some k
  | None => first_ok (word_ok t p) (word_alts pat)
  end.

(** [pattern.finditer(t)] as (start, end) spans.  After an empty match the
    search resumes one position further on. *)
Fixpoint find_from (pat : pattern) (t : string) (fuel p : nat) : list (nat * nat) :=
  match fuel with
  | 0 => []
  | S f =>
      if Nat.ltb (String.length t) p then [] else
      match match_at pat t p with
      | Some k =>
          let n := String.length k in
          (p, p + n) :: find_from pat t f (if Nat.eqb n 0 then S p else p + n)
      | None => find_from pat t f (S p)
      end
  end.

Definition finditer (pat : pattern) (t : string) : list (nat * nat) :=
  find_from pat t (S (String.length t)) 0.

(** [pattern.sub(repl, t)]: the callback is run on each match in order; an
    exception in it propagates. *)
Fixpoint splice (repl : string -> option string) (t : string) (pos : nat)
    (ms : list (nat * nat)) : option string :=
  match ms with
  | [] => Some (str_slice t pos (String.length t))
  | (s, e) :: r =>
      match repl (str_slice t s e) with
      | None => None
      | Some x =>
          match splice repl t e r with
          | None => None
          | Some y => Some (str_slice t pos s ++ x ++ y)
          end
      end
  end.

Definition re_sub (pat : pattern) (repl : string -> option string) (t : string)
  : option string := splice repl t 0 (finditer pat t).

(** ** [_fix_single_optimized]: the [replace_match] callback *)

(** The case handling shared by [fix] and [contract]; [matched_text[0]]
    raises [IndexError] on an empty match. *)
Definition recase (matched replacement : string) : option string :=
  if py_isupper matched then Some (str_upper replacement)
  else match String.get 0 matched with
       | None => None
       | Some c => if is_upper_c c then Some (capitalize replacement)
                   else Some replacement
       end.

Definition replace_match (d : dict) (matched : string) : option string :=
  if (ends_with "'s" matched || ends_with "'s" matched)
     && negb (is_contraction_s matched) then Some matched else
  let matched_lower := str_lower matched in
  match dict_get matched_lower d with
  | Some r => recase matched r
  | None =>
      match dict_get (replace_char "'" "'" matched_lower) d with
      | Some r => recase matched r
      | None => Some matched
      end
  end.

(** [self.pattern.sub(replace_match, text)] with the pattern compiled from
    the current table. *)
Definition fix_with (pat : pattern) (d : dict) (t : string) : option string :=
  re_sub pat (replace_match d) t.

Definition fix_text (d : dict) (t : string) : option string :=
  fix_with (compile_pattern (dict_keys d)) d t.

(** ** [_contract_single_optimized] *)

(** [reverse_pattern]: one alternation of [\bkey\b], sorted the same way. *)
Definition compile_reverse_pattern (keys : list string) : pattern :=
  mk_pattern [] (sort_keys keys).

Definition contract_match (rd : dict) (matched : string) : option string :=
  match dict_get (str_lower matched) rd with
  | None => Some matched
  | Some r => recase matched r
  end.

Definition contract_with (pat : pattern) (rd : dict) (t : string) : option string :=
  re_sub pat (contract_match rd) t.

(** ** [preview] *)

Record Match := mk_match {
  match_text : string; match_start : nat; match_end : nat;
  match_replacement : string; match_context : string }.

Definition preview_with (pat : pattern) (d : dict) (t : string) (context_size : nat)
  : list Match :=
  map (fun (se : nat * nat) =>
         let (s, e) := se in
         let matched := str_slice t s e in
         mk_match matched s e
           (match dict_get (str_lower matched) d with Some r => r | None => matched end)
           (str_slice t (s - context_size) (Nat.min (String.length t) (e + context_size))))
      (finditer pat t).

(** ** Construction *)

(** [_load_dict_optimized]: [{k.lower(): v for k, v in raw.items()}]. *)
Definition load_dict (raw : dict) : dict :=
  fold_left (fun (acc : dict) (kv : string * string) => dict_set (str_lower (fst kv)) (snd kv) acc) raw [].

(** [self.combined_dict] before the apostrophe twins are added. *)
Definition build_combined (standard informal slang : dict)
    (use_informal use_slang : bool) : dict :=
  let d0 := fold_left (fun (d : dict) m => dict_set (month_abbrev m) m d) MONTHS standard in
  let d1 := if use_informal then dict_update d0 informal else d0 in
  if use_slang then dict_update d1 slang else d1.

(** One iteration of the loop of [_build_reverse_dict_optimized]. *)
Definition reverse_step (rd : dict) (kv : string * string) : dict :=
  let (contraction, expansion) := kv in
  let expansion_lower := str_lower expansion in
  if in_set expansion_lower SAFE_CONTRACTIONS && str_has "'" contraction
     && Nat.ltb 2 (String.length contraction) then
    match dict_get expansion_lower rd with
    | None => dict_set expansion_lower contraction rd
    | Some existing =>
        if (negb (starts_with "'" contraction) && starts_with "'" existing)
           || (Nat.ltb (String.length contraction) (String.length existing)
               && negb (starts_with "'" contraction))
        then dict_set expansion_lower contraction rd else rd
    end
  else rd.

Definition build_reverse_dict (standard : dict) (use_informal : bool) : dict :=
  let rd := fold_left reverse_step standard [] in
  if use_informal then dict_update rd SAFE_INFORMAL else rd.

(** The source's "alternative apostrophe" is the same ASCII character. *)
Definition alt_apostrophe (s : string) : string := replace_char "'" "'" s.

(** [_add_alt_apostrophes_optimized] *)
Definition add_alt_apostrophes (cd rd : dict) : dict * dict :=
  let alt_c := fold_left (fun (acc : dict) (kv : string * string) =>
                 if str_has "'" (fst kv) then dict_set (alt_apostrophe (fst kv)) (snd kv) acc
                 else acc) cd [] in
  let alt_r := fold_left (fun (acc : dict) (kv : string * string) =>
                 if str_has "'" (snd kv) then dict_set (fst kv) (alt_apostrophe (snd kv)) acc
                 else acc) rd [] in
  (dict_update cd alt_c, dict_update rd alt_r).

(** ** The [ContractionFixer] instance as explicit state *)

Module Engine.

(** The attributes the operations read and write: the two tables, the
    lazily compiled [_pattern] / [_reverse_pattern] ([None] before the first
    use and after a mutation), and the [lru_cache] entries of
    [_fix_single_optimized] / [_contract_single_optimized], most recent
    first. *)
Record state := mk_state {
  combined_dict : dict;
  reverse_dict : dict;
  pattern_cache : option pattern;
  reverse_pattern_cache : option pattern;
  fix_cache : dict;
  contract_cache : dict }.

(** [@lru_cache(maxsize=2048)] *)
Definition CACHE_SIZE : nat := 2048.

(** A hit moves the entry to the front; a miss inserts it there, evicting
    the least recently used entry beyond [CACHE_SIZE]. *)
Definition cache_touch (k v : string) (c : dict) : dict := (k, v) :: dict_pop k c.
Definition cache_put (k v : string) (c : dict) : dict := firstn CACHE_SIZE ((k, v) :: c).

Definition set_pattern (st : state) (p : option pattern) : state :=
  mk_state (combined_dict st) (reverse_dict st) p (reverse_pattern_cache st)
           (fix_cache st) (contract_cache st).
Definition set_reverse_pattern (st : state) (p : option pattern) : state :=
  mk_state (combined_dict st) (reverse_dict st) (pattern_cache st) p
           (fix_cache st) (contract_cache st).
Definition set_fix_cache (st : state) (c : dict) : state :=
  mk_state (combined_dict st) (reverse_dict st) (pattern_cache st)
           (reverse_pattern_cache st) c (contract_cache st).
Definition set_contract_cache (st : state) (c : dict) : state :=
  mk_state (combined_dict st) (reverse_dict st) (pattern_cache st)
           (reverse_pattern_cache st) (fix_cache st) c.

(** [__init__], given the three raw JSON objects. *)
Definition init (standard informal slang : dict) (use_informal use_slang : bool) : state :=
  let std := load_dict standard in
  let inf := if use_informal then load_dict informal else [] in
  let sl := if use_slang then load_dict slang else [] in
  let cd := build_combined std inf sl use_informal use_slang in
  let rd := build_reverse_dict std use_informal in
  let tables := add_alt_apostrophes cd rd in
  mk_state (fst tables) (snd tables) None None [] [].

(** The [pattern] property. *)
Definition get_pattern (st : state) : pattern * state :=
  match pattern_cache st with
  | Some p => (p, st)
  | None =>
      let p := compile_pattern (dict_keys (combined_dict st)) in
      (p, set_pattern st (Some p))
  end.

(** The [reverse_pattern] property. *)
Definition get_reverse_pattern (st : state) : pattern * state :=
  match reverse_pattern_cache st with
  | Some p => (p, st)
  | None =>
      let p := compile_reverse_pattern (dict_keys (reverse_dict st)) in
      (p, set_reverse_pattern st (Some p))
  end.

(** [fix]: the memoized [_fix_single_optimized].  An exception is not
    cached. *)
Definition fix_ (st : state) (text : string) : option string * state :=
  match dict_get text (fix_cache st) with
  | Some r => (Some r, set_fix_cache st (cache_touch text r (fix_cache st)))
  | None =>
      let (p, st1) := get_pattern st in
      match fix_with p (combined_dict st1) text with
      | Some r => (Some r, set_fix_cache st1 (cache_put text r (fix_cache st1)))
      | None => (None, st1)
      end
  end.

(** [contract]: the memoized [_contract_single_optimized]. *)
Definition contract (st : state) (text : string) : option string * state :=
  match dict_get text (contract_cache st) with
  | Some r => (Some r, set_contract_cache st (cache_touch text r (contract_cache st)))
  | None =>
      let (p, st1) := get_reverse_pattern st in
      match contract_with p (reverse_dict st1) text with
      | Some r => (Some r, set_contract_cache st1 (cache_put text r (contract_cache st1)))
      | None => (None, st1)
      end
  end.

(** [preview] *)
Definition preview (st : state) (text : string) (context_size : nat) : list Match * state :=
  let (p, st1) := get_pattern st in
  (preview_with p (combined_dict st1) text context_size, st1).

(** [add_contraction] *)
Definition add_contraction (st : state) (contraction expansion : string) : state :=
  let contraction_lower := str_lower contraction in
  let expansion_lower := str_lower expansion in
  let cd := dict_set contraction_lower expansion (combined_dict st) in
  let cd := dict_set (alt_apostrophe contraction_lower) expansion cd in
  let rd := reverse_dict st in
  let rd :=
    if str_has "'" contraction_lower && Nat.ltb 1 (String.length contraction_lower) then
      match dict_get expansion_lower rd with
      | None => dict_set expansion_lower contraction_lower rd
      | Some existing =>
          if Nat.ltb (String.length contraction_lower) (String.length existing)
          then dict_set expansion_lower contraction_lower rd else rd
      end
    else rd in
  mk_state cd rd None None [] [].

(** [remove_contraction] *)
Definition remove_contraction (st : state) (contraction : string) : state :=
  let contraction_lower := str_lower contraction in
  let expansion := dict_get contraction_lower (combined_dict st) in
  let cd := dict_pop contraction_lower (combined_dict st) in
  let cd := dict_pop (alt_apostrophe contraction_lower) cd in
  let rd := reverse_dict st in
  let rd :=
    match expansion with
    | Some x =>
        if negb (String.eqb x "") then
          match dict_get (str_lower x) rd with
          | Some v => if String.eqb v contraction_lower then dict_pop (str_lower x) rd else rd
          | None => rd
          end
        else rd
    | None => rd
    end in
  mk_state cd rd None None [] [].

(** Every piece of derived state agrees with the current tables. *)
Definition consistent (st : state) : Prop :=
  (forall p, pattern_cache st = Some p -> p = compile_pattern (dict_keys (combined_dict st))) /\
  (forall p, reverse_pattern_cache st = Some p ->
             p = compile_reverse_pattern (dict_keys (reverse_dict st))) /\
  (forall k v, dict_get k (fix_cache st) = Some v -> fix_text (combined_dict st) k = Some v) /\
  (forall k v, dict_get k (contract_cache st) = Some v ->
     contract_with (compile_reverse_pattern (dict_keys (reverse_dict st))) (reverse_dict st) k
       = Some v).

End Engine.

(** A small table for concrete runs: the entries of the standard table the
    tests and the spec's examples exercise. *)
Definition sample_standard : dict :=
  [("i'm", "I am"); ("can't", "cannot"); ("it's", "it is"); ("don't", "do not");
   ("they're", "they are"); ("today's", "today is"); ("that's", "that is")].

Example ex_fix1 : fix_text sample_standard "I can't do it" = Some "I cannot do it".
Proof. vm_compute. reflexivity. Qed.
Example ex_fix2 : fix_text sample_standard "It's John's car and that's final"
  = Some "It is John's car and that is final".
Proof. vm_compute. reflexivity. Qed.
Example ex_fix3 : fix_text sample_standard "DON'T STOP" = Some "DO NOT STOP".
Proof. vm_compute. reflexivity. Qed.
Example ex_fix4 : fix_text sample_standard "today's weather is nice" = Some "today is weather is nice".
Proof. vm_compute. reflexivity. Qed.

(** ** Derived names used in statements *)

(** [base = word[:-2].lower()] *)
Definition s_base (w : string) : string := str_lower (substring 0 (String.length w - 2) w).

Definition sibilant_end (b : string) : bool :=
  ends_with "s" b || ends_with "x" b || ends_with "z" b || ends_with "ch" b || ends_with "sh" b.

(** A key is eligible at [p] when its partition's boundary rule holds there. *)
Definition eligible (keys : list string) (t : string) (p : nat) (k : string) : Prop :=
  In k keys /\ (if has_apos k then apos_ok t p k else word_ok t p k) = true.

(** The table with only the month entries (empty data files, both flags off). *)
Definition month_table : dict := build_combined [] [] [] false false.

(** ** Sequences of read calls against one engine *)

Inductive call := CFix (t : string) | CContract (t : string) | CPreview (t : string) (n : nat).
Inductive reply := RFix (r : option string) | RContract (r : option string) | RPreview (r : list Match).

Definition step (st : Engine.state) (c : call) : reply * Engine.state :=
  match c with
  | CFix t => let (r, st') := Engine.fix_ st t in (RFix r, st')
  | CContract t => let (r, st') := Engine.contract st t in (RContract r, st')
  | CPreview t n => let (r, st') := Engine.preview st t n in (RPreview r, st')
  end.

Fixpoint run (st : Engine.state) (cs : list call) : list reply :=
  match cs with
  | [] => []
  | c :: r => let (x, st') := step st c in x :: run st' r
  end.

(** What a call returns when computed afresh from the two tables. *)
Definition fresh_reply (cd rd : dict) (c : call) : reply :=
  match c with
  | CFix t => RFix (fix_text cd t)
  | CContract t => RContract (contract_with (compile_reverse_pattern (dict_keys rd)) rd t)
  | CPreview t n => RPreview (preview_with (compile_pattern (dict_keys cd)) cd t n)
  end.

Definition st_sample : Engine.state := Engine.init sample_standard [] [] false false.

Example ex_gonna :
  run st_sample [CFix "I'm gonna do it"] = [RFix (Some "I am gonna do it")].
Proof. vm_compute. reflexivity. Qed.

(** ** The class-wide memo caches

    [@lru_cache] on a method keeps one cache per decorated function, shared
    by every instance of the class and keyed by [(self, text)].
    [cache_clear()], reached through any instance, empties it for all of
    them.  Instances are numbered in creation order; each one keeps its own
    tables and compiled patterns. *)

(** The three data files as raw JSON objects. *)
Record data := mk_data { data_standard : dict; data_informal : dict; data_slang : dict }.

(** [ContractionFixer(use_informal, use_slang)] *)
Definition new_fixer (dt : data) (use_informal use_slang : bool) : Engine.state :=
  Engine.init (data_standard dt) (data_informal dt) (data_slang dt) use_informal use_slang.

Module Shared.

Record inst := mk_inst {
  i_combined : dict; i_reverse : dict;
  i_pattern : option pattern; i_reverse_pattern : option pattern }.

Definition of_engine (st : Engine.state) : inst :=
  mk_inst (Engine.combined_dict st) (Engine.reverse_dict st)
          (Engine.pattern_cache st) (Engine.reverse_pattern_cache st).

(** The attributes of an instance, with no memo entries of its own. *)
Definition to_engine (i : inst) : Engine.state :=
  Engine.mk_state (i_combined i) (i_reverse i) (i_pattern i) (i_reverse_pattern i) [] [].

(** A cache key [(self, text)], with [self] as the instance's number. *)
Definition key := (nat * string)%type.
Definition cache := list (key * string).

Definition key_eqb (a b : key) : bool := Nat.eqb (fst a) (fst b) && String.eqb (snd a) (snd b).

Fixpoint get (k : key) (c : cache) : option string :=
  match c with
  | [] => None
  | (k', v) :: r => if key_eqb k k' then Some v else get k r
  end.

Fixpoint pop (k : key) (c : cache) : cache :=
  match c with
  | [] => []
  | (k', v) :: r => if key_eqb k k' then r else (k', v) :: pop k r
  end.

(** A hit moves the entry to the front; a miss inserts it there and evicts
    the least recently used entry beyond [maxsize]. *)
Definition touch (k : key) (v : string) (c : cache) : cache := (k, v) :: pop k c.
Definition put (k : key) (v : string) (c : cache) : cache :=
  firstn Engine.CACHE_SIZE ((k, v) :: c).

Record world := mk_world { insts : list inst; fix_cache : cache; contract_cache : cache }.

Definition empty : world := mk_world [] [] [].

(** Replace the [n]-th instance. *)
Fixpoint upd {A : Type} (n : nat) (x : A) (l : list A) : list A :=
  match n, l with
  | _, [] => []
  | 0, _ :: r => x :: r
  | S n', y :: r => y :: upd n' x r
  end.

(** A new instance gets the next number. *)
Definition create (w : world) (st : Engine.state) : nat * world :=
  (List.length (insts w), mk_world (insts w ++ [of_engine st]) (fix_cache w) (contract_cache w)).

(** [inst.fix(text)]: [_fix_single_optimized] through the shared cache. *)
Definition fix_ (w : world) (id : nat) (text : string) : option string * world :=
  match nth_error (insts w) id with
  | None => (None, w)
  | Some i =>
      match get (id, text) (fix_cache w) with
      | Some r => (Some r, mk_world (insts w) (touch (id, text) r (fix_cache w)) (contract_cache w))
      | None =>
          let (p, st1) := Engine.get_pattern (to_engine i) in
          let ins := upd id (of_engine st1) (insts w) in
          match fix_with p (Engine.combined_dict st1) text with
          | Some r => (Some r, mk_world ins (put (id, text) r (fix_cache w)) (contract_cache w))
          | None => (None, mk_world ins (fix_cache w) (contract_cache w))
          end
      end
  end.

(** [inst.contract(text)]: [_contract_single_optimized] through the shared
    cache. *)
Definition contract (w : world) (id : nat) (text : string) : option string * world :=
  match nth_error (insts w) id with
  | None => (None, w)
  | Some i =>
      match get (id, text) (contract_cache w) with
      | Some r => (Some r, mk_world (insts w) (fix_cache w) (touch (id, text) r (contract_cache w)))
      | None =>
          let (p, st1) := Engine.get_reverse_pattern (to_engine i) in
          let ins := upd id (of_engine st1) (insts w) in
          match contract_with p (Engine.reverse_dict st1) text with
          | Some r => (Some r, mk_world ins (fix_cache w) (put (id, text) r (contract_cache w)))
          | None => (None, mk_world ins (fix_cache w) (contract_cache w))
          end
      end
  end.

(** [inst.fix_batch(texts)]: the list comprehension stops at the first
    exception. *)
Fixpoint fix_batch (w : world) (id : nat) (texts : list string) : option (list string) * world :=
  match texts with
  | [] => (Some [], w)
  | t :: r =>
      match fix_ w id t with
      | (None, w1) => (None, w1)
      | (Some x, w1) =>
          match fix_batch w1 id r with
          | (Some xs, w2) => (Some (x :: xs), w2)
          | (None, w2) => (None, w2)
          end
      end
  end.

(** [inst.contract_batch(texts)] *)
Fixpoint contract_batch (w : world) (id : nat) (texts : list string)
  : option (list string) * world :=
  match texts with
  | [] => (Some [], w)
  | t :: r =>
      match contract w id t with
      | (None, w1) => (None, w1)
      | (Some x, w1) =>
          match contract_batch w1 id r with
          | (Some xs, w2) => (Some (x :: xs), w2)
          | (None, w2) => (None, w2)
          end
      end
  end.

(** [inst.preview(text, context_size)] *)
Definition preview (w : world) (id : nat) (text : string) (context_size : nat)
  : option (list Match) * world :=
  match nth_error (insts w) id with
  | None => (None, w)
  | Some i =>
      let (ms, st1) := Engine.preview (to_engine i) text context_size in
      (Some ms, mk_world (upd id (of_engine st1) (insts w)) (fix_cache w) (contract_cache w))
  end.

(** [inst.add_contraction(c, e)]: the instance's tables change and both
    shared caches are cleared. *)
Definition add_contraction (w : world) (id : nat) (c e : string) : world :=
  match nth_error (insts w) id with
  | None => w
  | Some i => mk_world (upd id (of_engine (Engine.add_contraction (to_engine i) c e)) (insts w)) [] []
  end.

(** [inst.remove_contraction(c)] *)
Definition remove_contraction (w : world) (id : nat) (c : string) : world :=
  match nth_error (insts w) id with
  | None => w
  | Some i => mk_world (upd id (of_engine (Engine.remove_contraction (to_engine i) c)) (insts w)) [] []
  end.

(** Calls on the instances of one program. *)
Inductive call :=
  | WNew (use_informal use_slang : bool)
  | WFix (id : nat) (t : string)
  | WFixBatch (id : nat) (ts : list string)
  | WContract (id : nat) (t : string)
  | WContractBatch (id : nat) (ts : list string)
  | WPreview (id : nat) (t : string) (n : nat)
  | WAdd (id : nat) (c e : string)
  | WRemove (id : nat) (c : string).

Inductive reply :=
  | RNew (id : nat)
  | RText (r : option string)
  | RTexts (r : option (list string))
  | RMatches (r : option (list Match))
  | RDone.

Definition step (dt : data) (w : world) (c : call) : reply * world :=
  match c with
  | WNew ui us => let (id, w') := create w (new_fixer dt ui us) in (RNew id, w')
  | WFix id t => let (r, w') := fix_ w id t in (RText r, w')
  | WFixBatch id ts => let (r, w') := fix_batch w id ts in (RTexts r, w')
  | WContract id t => let (r, w') := contract w id t in (RText r, w')
  | WContractBatch id ts => let (r, w') := contract_batch w id ts in (RTexts r, w')
  | WPreview id t n => let (r, w') := preview w id t n in (RMatches r, w')
  | WAdd id c e => (RDone, add_contraction w id c e)
  | WRemove id c => (RDone, remove_contraction w id c)
  end.

Fixpoint run (dt : data) (w : world) (cs : list call) : list reply :=
  match cs with
  | [] => []
  | c :: r => let (x, w') := step dt w c in x :: run dt w' r
  end.

Fixpoint final (dt : data) (w : world) (cs : list call) : world :=
  match cs with
  | [] => w
  | c :: r => final dt (snd (step dt w c)) r
  end.

End Shared.

(** ** [contraction_fix/__init__.py] *)

Module Api.

(** Importing the package builds [_default_fixer], instance 0. *)
Definition import_package (dt : data) : Shared.world :=
  snd (Shared.create Shared.empty (new_fixer dt true true)).

(** [fix(text, use_informal, use_slang)]: the default fixer when both flags
    are set, otherwise a new [ContractionFixer] for this call. *)
Definition fix_ (dt : data) (w : Shared.world) (text : string) (ui us : bool)
  : option string * Shared.world :=
  if ui && us then Shared.fix_ w 0 text
  else let (id, w1) := Shared.create w (new_fixer dt ui us) in Shared.fix_ w1 id text.

Definition fix_batch (dt : data) (w : Shared.world) (texts : list string) (ui us : bool)
  : option (list string) * Shared.world :=
  if ui && us then Shared.fix_batch w 0 texts
  else let (id, w1) := Shared.create w (new_fixer dt ui us) in Shared.fix_batch w1 id texts.

Definition contract (dt : data) (w : Shared.world) (text : string) (ui us : bool)
  : option string * Shared.world :=
  if ui && us then Shared.contract w 0 text
  else let (id, w1) := Shared.create w (new_fixer dt ui us) in Shared.contract w1 id text.

Definition contract_batch (dt : data) (w : Shared.world) (texts : list string) (ui us : bool)
  : option (list string) * Shared.world :=
  if ui && us then Shared.contract_batch w 0 texts
  else let (id, w1) := Shared.create w (new_fixer dt ui us) in
       Shared.contract_batch w1 id texts.

Inductive call :=
  | AFix (t : string) (ui us : bool)
  | AFixBatch (ts : list string) (ui us : bool)
  | AContract (t : string) (ui us : bool)
  | AContractBatch (ts : list string) (ui us : bool).

Definition step (dt : data) (w : Shared.world) (c : call) : Shared.reply * Shared.world :=
  match c with
  | AFix t ui us => let (r, w') := fix_ dt w t ui us in (Shared.RText r, w')
  | AFixBatch ts ui us => let (r, w') := fix_batch dt w ts ui us in (Shared.RTexts r, w')
  | AContract t ui us => let (r, w') := contract dt w t ui us in (Shared.RText r, w')
  | AContractBatch ts ui us =>
      let (r, w') := contract_batch dt w ts ui us in (Shared.RTexts r, w')
  end.

Fixpoint run (dt : data) (w : Shared.world) (cs : list call) : list Shared.reply :=
  match cs with
  | [] => []
  | c :: r => let (x, w') := step dt w c in x :: run dt w' r
  end.

End Api.

(** ** Statement helpers for the shared caches and the package API *)

(** A batch either raises or returns every result. *)
Fixpoint all_some (l : list (option string)) : option (list string) :=
  match l with
  | [] => Some []
  | None :: _ => None
  | Some x :: r => match all_some r with Some xs => Some (x :: xs) | None => None end
  end.

Definition reverse_fix (rd : dict) (t : string) : option string :=
  contract_with (compile_reverse_pattern (dict_keys rd)) rd t.

Definition engine_tables (st : Engine.state) : dict * dict :=
  (Engine.combined_dict st, Engine.reverse_dict st).

(** The tables of every instance, as a program without any caching would
    hold them. *)
Definition tables_step (dt : data) (tabs : list (dict * dict)) (c : Shared.call)
  : list (dict * dict) :=
  match c with
  | Shared.WNew ui us => tabs ++ [engine_tables (new_fixer dt ui us)]
  | Shared.WAdd id c e =>
      match nth_error tabs id with
      | Some (cd, rd) =>
          Shared.upd id (engine_tables
            (Engine.add_contraction (Engine.mk_state cd rd None None [] []) c e)) tabs
      | None => tabs
      end
  | Shared.WRemove id c =>
      match nth_error tabs id with
      | Some (cd, rd) =>
          Shared.upd id (engine_tables
            (Engine.remove_contraction (Engine.mk_state cd rd None None [] []) c)) tabs
      | None => tabs
      end
  | _ => tabs
  end.

(** What [fix] and [contract] return on instance [id] when computed afresh
    from its tables. *)
Definition fresh_fix (tabs : list (dict * dict)) (id : nat) (t : string) : option string :=
  match nth_error tabs id with Some (cd, _) => fix_text cd t | None => None end.
Definition fresh_contract (tabs : list (dict * dict)) (id : nat) (t : string) : option string :=
  match nth_error tabs id with Some (_, rd) => reverse_fix rd t | None => None end.

(** What a call returns when computed afresh from its instance's tables. *)
Definition fresh_call (tabs : list (dict * dict)) (c : Shared.call) : Shared.reply :=
  match c with
  | Shared.WNew _ _ => Shared.RNew (List.length tabs)
  | Shared.WFix id t => Shared.RText (fresh_fix tabs id t)
  | Shared.WFixBatch id ts => Shared.RTexts (all_some (map (fresh_fix tabs id) ts))
  | Shared.WContract id t => Shared.RText (fresh_contract tabs id t)
  | Shared.WContractBatch id ts => Shared.RTexts (all_some (map (fresh_contract tabs id) ts))
  | Shared.WPreview id t n =>
      Shared.RMatches (match nth_error tabs id with
                       | Some (cd, _) => Some (preview_with (compile_pattern (dict_keys cd)) cd t n)
                       | None => None end)
  | Shared.WAdd _ _ _ | Shared.WRemove _ _ => Shared.RDone
  end.

Fixpoint fresh_run (dt : data) (tabs : list (dict * dict)) (cs : list Shared.call)
  : list Shared.reply :=
  match cs with
  | [] => []
  | c :: r => fresh_call tabs c :: fresh_run dt (tables_step dt tabs c) r
  end.

(** What a package-level call returns when computed by a new
    [ContractionFixer] with the same flags. *)
Definition api_fresh (dt : data) (c : Api.call) : Shared.reply :=
  match c with
  | Api.AFix t ui us => Shared.RText (fix_text (Engine.combined_dict (new_fixer dt ui us)) t)
  | Api.AFixBatch ts ui us =>
      Shared.RTexts (all_some (map (fix_text (Engine.combined_dict (new_fixer dt ui us))) ts))
  | Api.AContract t ui us => Shared.RText (reverse_fix (Engine.reverse_dict (new_fixer dt ui us)) t)
  | Api.AContractBatch ts ui us =>
      Shared.RTexts (all_some (map (reverse_fix (Engine.reverse_dict (new_fixer dt ui us))) ts))
  end.

(** Engine states a program can reach: construction, then any calls. *)
Inductive reachable : Engine.state -> Prop :=
  | reach_init std inf sl ui us : reachable (Engine.init std inf sl ui us)
  | reach_fix st t : reachable st -> reachable (snd (Engine.fix_ st t))
  | reach_contract st t : reachable st -> reachable (snd (Engine.contract st t))
  | reach_preview st t n : reachable st -> reachable (snd (Engine.preview st t n))
  | reach_add st c e : reachable st -> reachable (Engine.add_contraction st c e)
  | reach_remove st c : reachable st -> reachable (Engine.remove_contraction st c).

(** Every character of [s] is unchanged by [lower()]. *)
Definition is_lowered (s : string) : bool := String.eqb (str_lower s) s.

(** The last entry of [raw] whose lower-cased key is [k]. *)
Definition last_entry (k : string) (raw : dict) : option string :=
  match find (fun kv : string * string => String.eqb (str_lower (fst kv)) k) (rev raw) with
  | Some kv => Some (snd kv)
  | None => None
  end.

Definition month_entry (k : string) : option string :=
  find (fun m => String.eqb (month_abbrev m) k) MONTHS.

Definition first_some (a b : option string) : option string :=
  match a with Some x => Some x | None => b end.

(** ** Invariants used in the proofs *)

(** The tables an instance holds. *)
Definition inst_tables (i : Shared.inst) : dict * dict := (Shared.i_combined i, Shared.i_reverse i).

Definition good_fix (tabs : list (dict * dict)) (e : Shared.key * string) : Prop :=
  fresh_fix tabs (fst (fst e)) (snd (fst e)) = Some (snd e) /\ fst (fst e) < List.length tabs.
Definition good_contract (tabs : list (dict * dict)) (e : Shared.key * string) : Prop :=
  fresh_contract tabs (fst (fst e)) (snd (fst e)) = Some (snd e) /\ fst (fst e) < List.length tabs.

(** Every instance's compiled patterns and every shared cache entry agree
    with the current tables [tabs]. *)
Definition winv (tabs : list (dict * dict)) (w : Shared.world) : Prop :=
  map inst_tables (Shared.insts w) = tabs /\
  Forall (fun i => Engine.consistent (Shared.to_engine i)) (Shared.insts w) /\
  Forall (good_fix tabs) (Shared.fix_cache w) /\
  Forall (good_contract tabs) (Shared.contract_cache w).

(** The shared caches never exceed [maxsize] and hold each key once. *)
Definition cache_ok (c : Shared.cache) : Prop :=
  List.length c <= Engine.CACHE_SIZE /\ NoDup (map fst c).

Definition world_ok (w : Shared.world) : Prop :=
  cache_ok (Shared.fix_cache w) /\ cache_ok (Shared.contract_cache w).

Definition span_before (x y : nat * nat) : Prop := snd x <= fst y /\ fst x < fst y.

Definition key_lowered (kv : string * string) : Prop := is_lowered (fst kv) = true.
Definition value_has_apostrophe (kv : string * string) : Prop := str_has "'" (snd kv) = true.

Definition tables_inv (st : Engine.state) : Prop :=
  NoDup (dict_keys (Engine.combined_dict st)) /\
  Forall key_lowered (Engine.combined_dict st) /\
  Forall key_lowered (Engine.reverse_dict st) /\
  Forall value_has_apostrophe (Engine.reverse_dict st).

(** * Properties *)

(** ** Concrete runs that refute claims as written *)

(** C1 (counterexample): a lower-case [dog's], whose base is in neither fixed
    set, is classified as a contraction and, being a table key, expanded. *)
Lemma C1_lowercase_s_token_expanded :
  is_contraction_s "dog's" = true /\
  fix_text [("dog's", "dog is")] "the dog's bone" = Some "the dog is bone".
Proof. split; vm_compute; reflexivity. Qed.

(** C3 (counterexample): on a capitalised match the stored expansion goes
    through [capitalize], which lower-cases everything after the first
    character. *)
Lemma C3_capitalize_lowercases_rest :
  fix_text [("afaik", "as far as I know")] "Afaik, yes" = Some "As far as i know, yes".
Proof. vm_compute. reflexivity. Qed.

(** C4 (counterexample): [MONTHS] has eleven names, so eleven abbreviations
    are added, and none for May. *)
Lemma C4_eleven_months :
  List.length (map month_abbrev MONTHS) = 11 /\
  dict_get "may." (build_combined [] [] [] false false) = None.
Proof. split; vm_compute; reflexivity. Qed.

(** C5 (counterexample): [add_contraction] registers a shorter contraction
    even when it starts with an apostrophe, displacing [it's]. *)
Lemma C5_add_registers_apostrophe_prefixed :
  dict_get "it is" (Engine.reverse_dict (Engine.init [("it's", "it is")] [] [] false false))
    = Some "it's" /\
  dict_get "it is" (Engine.reverse_dict
      (Engine.add_contraction (Engine.init [("it's", "it is")] [] [] false false) "'ts" "it is"))
    = Some "'ts".
Proof. split; vm_compute; reflexivity. Qed.

(** C6 (counterexample): an expansion that contains a key is not re-scanned,
    so a second pass changes the text again. *)
Lemma C6_not_idempotent :
  fix_text [("don't", "do not"); ("idk", "I don't know")] "idk" = Some "I don't know" /\
  fix_text [("don't", "do not"); ("idk", "I don't know")] "I don't know" = Some "I do not know".
Proof. split; vm_compute; reflexivity. Qed.

(** C8: after [add_contraction("", "x")] the pattern gains an empty
    alternative; it matches at a word boundary, and [matched_text[0]] in the
    callback raises [IndexError], so [fix("a")] fails. *)
Lemma C8_empty_key_makes_fix_raise :
  fst (Engine.fix_ (Engine.add_contraction st_sample "" "x") "a") = None /\
  fst (Engine.contract (Engine.add_contraction st_sample "a'" "") "a") = None.
Proof. split; vm_compute; reflexivity. Qed.

(** C10: [preview] reports the stored expansion of the lower-cased match,
    or the match itself, and this differs from what [fix] substitutes on an
    all-upper-case match and on an ['s] token kept as possessive. *)
Theorem C10_preview_raw_replacement :
  (forall (st : Engine.state) (t : string) (n : nat),
     map match_replacement (fst (Engine.preview st t n)) =
     map (fun m => match dict_get (str_lower (match_text m)) (Engine.combined_dict st) with
                   | Some r => r | None => match_text m end)
         (fst (Engine.preview st t n))) /\
  (let st := Engine.init [("it's", "it is"); ("john's", "john is")] [] [] false false in
   map match_replacement (fst (Engine.preview st "IT'S" 10)) = ["it is"] /\
   fst (Engine.fix_ st "IT'S") = Some "IT IS" /\
   map match_replacement (fst (Engine.preview st "John's" 10)) = ["john is"] /\
   fst (Engine.fix_ st "John's") = Some "John's").
Proof.
  split.
  - intros st t n. unfold Engine.preview, Engine.get_pattern.
    destruct (Engine.pattern_cache st); simpl;
      unfold preview_with; rewrite !map_map; apply map_ext; intros [s e]; reflexivity.
  - vm_compute. repeat split.
Qed.

(** ** Dict and string lemmas *)

Lemma dict_get_set_eq (k v : string) (d : dict) : dict_get k (dict_set k v d) = Some v.
Proof.
  induction d as [|[k' v'] r IH]; simpl.
  - rewrite String.eqb_refl. reflexivity.
  - destruct (String.eqb k k') eqn:E; simpl.
    + rewrite String.eqb_refl. reflexivity.
    + rewrite E. exact IH.
Qed.

Lemma dict_get_set_neq (k k0 v : string) (d : dict) :
  k0 <> k -> dict_get k0 (dict_set k v d) = dict_get k0 d.
Proof.
  intros Hne. induction d as [|[k' v'] r IH]; simpl.
  - apply String.eqb_neq in Hne. rewrite Hne. reflexivity.
  - destruct (String.eqb k k') eqn:E; simpl.
    + apply String.eqb_eq in E. subst k'.
      apply String.eqb_neq in Hne. rewrite Hne. reflexivity.
    + destruct (String.eqb k0 k'); [reflexivity | exact IH].
Qed.

Lemma dict_get_pop_neq (k k0 : string) (d : dict) :
  k0 <> k -> dict_get k0 (dict_pop k d) = dict_get k0 d.
Proof.
  intros Hne. induction d as [|[k' v'] r IH]; simpl; [reflexivity|].
  destruct (String.eqb k k') eqn:E; simpl.
  - apply String.eqb_eq in E. subst k'.
    apply String.eqb_neq in Hne. rewrite Hne. reflexivity.
  - destruct (String.eqb k0 k'); [reflexivity | exact IH].
Qed.

Lemma dict_get_firstn (n : nat) (k v : string) (d : dict) :
  dict_get k (firstn n d) = Some v -> dict_get k d = Some v.
Proof.
  revert d. induction n as [|n IH]; intros d H; [discriminate|].
  destruct d as [|[k' v'] r]; simpl in *; [discriminate|].
  destruct (String.eqb k k'); [exact H | apply IH; exact H].
Qed.

Lemma dict_get_touch (k k0 v : string) (c : dict) (w : string) :
  dict_get k0 (Engine.cache_touch k v c) = Some w ->
  (k0 = k /\ w = v) \/ (k0 <> k /\ dict_get k0 c = Some w).
Proof.
  unfold Engine.cache_touch. simpl.
  destruct (String.eqb k0 k) eqn:E.
  - intros H. injection H as <-. left. split; [apply String.eqb_eq; exact E | reflexivity].
  - intros H. right. apply String.eqb_neq in E. split; [exact E|].
    rewrite dict_get_pop_neq in H by exact E. exact H.
Qed.

Lemma dict_get_put (k k0 v : string) (c : dict) (w : string) :
  dict_get k0 (Engine.cache_put k v c) = Some w ->
  (k0 = k /\ w = v) \/ (k0 <> k /\ dict_get k0 c = Some w).
Proof.
  unfold Engine.cache_put. intros H. apply dict_get_firstn in H. simpl in H.
  destruct (String.eqb k0 k) eqn:E.
  - injection H as <-. left. split; [apply String.eqb_eq; exact E | reflexivity].
  - right. split; [apply String.eqb_neq; exact E | exact H].
Qed.

Lemma substring_full (s : string) : substring 0 (String.length s) s = s.
Proof. induction s as [|c s IH]; simpl; [reflexivity | rewrite IH; reflexivity]. Qed.

Lemma splice_nil (repl : string -> option string) (t : string) :
  splice repl t 0 [] = Some t.
Proof. simpl. unfold str_slice. rewrite Nat.sub_0_r, substring_full. reflexivity. Qed.

(** ** The engine: derived state follows the tables *)

Section EngineInvariant.

Variable st : Engine.state.
Hypothesis Hc : Engine.consistent st.

Lemma get_pattern_correct :
  fst (Engine.get_pattern st) = compile_pattern (dict_keys (Engine.combined_dict st)) /\
  Engine.consistent (snd (Engine.get_pattern st)) /\
  Engine.combined_dict (snd (Engine.get_pattern st)) = Engine.combined_dict st /\
  Engine.reverse_dict (snd (Engine.get_pattern st)) = Engine.reverse_dict st.
Proof.
  pose proof Hc as (Hp & Hr & Hf & Hk).
  unfold Engine.get_pattern. destruct (Engine.pattern_cache st) as [p|] eqn:E; simpl.
  - split; [apply Hp; reflexivity|]. split; [|split; reflexivity]. exact Hc.
  - split; [reflexivity|]. split; [|split; reflexivity].
    unfold Engine.consistent; simpl. repeat split; try assumption.
    intros p' Hp'. injection Hp' as <-. reflexivity.
Qed.

Lemma get_reverse_pattern_correct :
  fst (Engine.get_reverse_pattern st) =
    compile_reverse_pattern (dict_keys (Engine.reverse_dict st)) /\
  Engine.consistent (snd (Engine.get_reverse_pattern st)) /\
  Engine.combined_dict (snd (Engine.get_reverse_pattern st)) = Engine.combined_dict st /\
  Engine.reverse_dict (snd (Engine.get_reverse_pattern st)) = Engine.reverse_dict st.
Proof.
  pose proof Hc as (Hp & Hr & Hf & Hk).
  unfold Engine.get_reverse_pattern.
  destruct (Engine.reverse_pattern_cache st) as [p|] eqn:E; simpl.
  - split; [apply Hr; reflexivity|]. split; [|split; reflexivity]. exact Hc.
  - split; [reflexivity|]. split; [|split; reflexivity].
    unfold Engine.consistent; simpl. repeat split; try assumption.
    intros p' Hp'. injection Hp' as <-. reflexivity.
Qed.

Lemma fix_correct (t : string) :
  fst (Engine.fix_ st t) = fix_text (Engine.combined_dict st) t /\
  Engine.consistent (snd (Engine.fix_ st t)) /\
  Engine.combined_dict (snd (Engine.fix_ st t)) = Engine.combined_dict st /\
  Engine.reverse_dict (snd (Engine.fix_ st t)) = Engine.reverse_dict st.
Proof.
  pose proof Hc as Hc'. destruct Hc' as (Hp & Hr & Hf & Hk).
  unfold Engine.fix_.
  destruct (dict_get t (Engine.fix_cache st)) as [r|] eqn:Ecache.
  - simpl. split; [symmetry; apply Hf; exact Ecache|]. split; [|split; reflexivity].
    unfold Engine.consistent; simpl. repeat split; try assumption.
    intros k v Hkv. apply dict_get_touch in Hkv as [[-> ->]|[_ Hkv]].
    + apply Hf; exact Ecache.
    + apply Hf; exact Hkv.
  - destruct get_pattern_correct as (Hpat & Hc1 & Hcd & Hrd).
    destruct (Engine.get_pattern st) as [p st1]. simpl in *.
    subst p. rewrite Hcd.
    destruct Hc1 as (Hp1 & Hr1 & Hf1 & Hk1).
    change (fix_with (compile_pattern (dict_keys (Engine.combined_dict st)))
              (Engine.combined_dict st) t) with (fix_text (Engine.combined_dict st) t).
    destruct (fix_text (Engine.combined_dict st) t) as [r|] eqn:Efix; cbn -[Engine.cache_put].
    + split; [reflexivity|]. split; [|split; assumption].
      unfold Engine.consistent; cbn -[Engine.cache_put]. repeat split; try assumption.
      intros k v Hkv. apply dict_get_put in Hkv.
      destruct Hkv as [[-> ->]|[_ Hkv]].
      *  rewrite Hcd. exact Efix.
      * apply Hf1. exact Hkv.
    + split; [reflexivity|]. split; [|split; assumption].
      repeat split; assumption.
Qed.

Lemma contract_correct (t : string) :
  fst (Engine.contract st t) =
    contract_with (compile_reverse_pattern (dict_keys (Engine.reverse_dict st)))
                  (Engine.reverse_dict st) t /\
  Engine.consistent (snd (Engine.contract st t)) /\
  Engine.combined_dict (snd (Engine.contract st t)) = Engine.combined_dict st /\
  Engine.reverse_dict (snd (Engine.contract st t)) = Engine.reverse_dict st.
Proof.
  pose proof Hc as Hc'. destruct Hc' as (Hp & Hr & Hf & Hk).
  unfold Engine.contract.
  destruct (dict_get t (Engine.contract_cache st)) as [r|] eqn:Ecache.
  - simpl. split; [symmetry; apply Hk; exact Ecache|]. split; [|split; reflexivity].
    unfold Engine.consistent; simpl. repeat split; try assumption.
    intros k v Hkv. apply dict_get_touch in Hkv as [[-> ->]|[_ Hkv]].
    + apply Hk; exact Ecache.
    + apply Hk; exact Hkv.
  - destruct get_reverse_pattern_correct as (Hpat & Hc1 & Hcd & Hrd).
    destruct (Engine.get_reverse_pattern st) as [p st1]. simpl in *.
    subst p. rewrite Hrd.
    destruct Hc1 as (Hp1 & Hr1 & Hf1 & Hk1).
    destruct (contract_with (compile_reverse_pattern (dict_keys (Engine.reverse_dict st)))
                (Engine.reverse_dict st) t) as [r|] eqn:Ec; cbn -[Engine.cache_put].
    + split; [reflexivity|]. split; [|split; assumption].
      unfold Engine.consistent; cbn -[Engine.cache_put]. repeat split; try assumption.
      intros k v Hkv. apply dict_get_put in Hkv.
      destruct Hkv as [[-> ->]|[_ Hkv]].
      *  rewrite Hrd. exact Ec.
      * apply Hk1. exact Hkv.
    + split; [reflexivity|]. split; [|split; assumption].
      repeat split; assumption.
Qed.

Lemma preview_correct (t : string) (n : nat) :
  fst (Engine.preview st t n) =
    preview_with (compile_pattern (dict_keys (Engine.combined_dict st)))
                 (Engine.combined_dict st) t n /\
  Engine.consistent (snd (Engine.preview st t n)) /\
  Engine.combined_dict (snd (Engine.preview st t n)) = Engine.combined_dict st /\
  Engine.reverse_dict (snd (Engine.preview st t n)) = Engine.reverse_dict st.
Proof.
  destruct get_pattern_correct as (Hpat & Hc1 & Hcd & Hrd).
  unfold Engine.preview. destruct (Engine.get_pattern st) as [p st1]. simpl in *.
  subst p. rewrite Hcd. split; [reflexivity|]. split; [exact Hc1|]. split; [reflexivity|exact Hrd].
Qed.

End EngineInvariant.

Lemma step_correct (st : Engine.state) (c : call) :
  Engine.consistent st ->
  fst (step st c) = fresh_reply (Engine.combined_dict st) (Engine.reverse_dict st) c /\
  Engine.consistent (snd (step st c)) /\
  Engine.combined_dict (snd (step st c)) = Engine.combined_dict st /\
  Engine.reverse_dict (snd (step st c)) = Engine.reverse_dict st.
Proof.
  intros Hc. destruct c as [t|t|t n]; simpl.
  - destruct (fix_correct st Hc t) as (H1 & H2 & H3 & H4).
    destruct (Engine.fix_ st t). simpl in *. rewrite H1. auto.
  - destruct (contract_correct st Hc t) as (H1 & H2 & H3 & H4).
    destruct (Engine.contract st t). simpl in *. rewrite H1. auto.
  - destruct (preview_correct st Hc t n) as (H1 & H2 & H3 & H4).
    destruct (Engine.preview st t n). simpl in *. rewrite H1. auto.
Qed.

Lemma run_fresh (cs : list call) (st : Engine.state) :
  Engine.consistent st ->
  run st cs = map (fresh_reply (Engine.combined_dict st) (Engine.reverse_dict st)) cs.
Proof.
  revert st. induction cs as [|c cs IH]; intros st Hc; [reflexivity|].
  simpl. destruct (step_correct st c Hc) as (H1 & H2 & H3 & H4).
  destruct (step st c) as [x st']. simpl in *.
  rewrite IH by exact H2. rewrite H1, H3, H4. reflexivity.
Qed.

Lemma fresh_state_consistent (cd rd : dict) :
  Engine.consistent (Engine.mk_state cd rd None None [] []).
Proof. unfold Engine.consistent; simpl. repeat split; discriminate. Qed.

(** C7: [add_contraction] and [remove_contraction] drop both compiled
    patterns and both memo caches, so every later [fix], [contract] or
    [preview] call returns what the mutated tables give afresh; in the
    spec's scenario, with a stale cache entry for the very input, the
    mutation is visible and then undone. *)
Theorem C7_mutations_visible :
  (forall (st : Engine.state) (c e : string) (cs : list call),
     let st' := Engine.add_contraction st c e in
     run st' cs = map (fresh_reply (Engine.combined_dict st') (Engine.reverse_dict st')) cs) /\
  (forall (st : Engine.state) (c : string) (cs : list call),
     let st' := Engine.remove_contraction st c in
     run st' cs = map (fresh_reply (Engine.combined_dict st') (Engine.reverse_dict st')) cs) /\
  (let st1 := snd (Engine.fix_ st_sample "I'm gonna do it") in
   let st2 := Engine.add_contraction st1 "gonna" "going to" in
   fst (Engine.fix_ st1 "I'm gonna do it") = Some "I am gonna do it" /\
   fst (Engine.fix_ st2 "I'm gonna do it") = Some "I am going to do it" /\
   fst (Engine.fix_ (Engine.remove_contraction (snd (Engine.fix_ st2 "I'm gonna do it")) "gonna")
          "I'm gonna do it") = Some "I am gonna do it").
Proof.
  split; [|split].
  - intros st c e cs st'. apply run_fresh. apply fresh_state_consistent.
  - intros st c cs st'. apply run_fresh. apply fresh_state_consistent.
  - vm_compute. repeat split.
Qed.

(** ** The disambiguator and the case rule *)

Lemma replace_char_same (a : ascii) (s : string) : replace_char a a s = s.
Proof.
  unfold replace_char. induction s as [|c s IH]; simpl; [reflexivity|].
  rewrite IH. destruct (Ascii.eqb c a) eqn:E; [apply Ascii.eqb_eq in E; subst|]; reflexivity.
Qed.

Lemma drop_exists (p : ascii -> bool) (n : nat) (s : string) :
  str_exists p (str_drop n s) = true -> str_exists p s = true.
Proof.
  revert s. induction n as [|n IH]; intros [|c s] H; simpl in *; auto.
  apply orb_true_iff. right. apply IH. exact H.
Qed.

Lemma s_token_not_isupper (w : string) : ends_with "'s" w = true -> py_isupper w = false.
Proof.
  unfold ends_with, py_isupper. intros H. apply andb_true_iff in H as [_ H].
  apply String.eqb_eq in H.
  assert (Hl : str_exists is_lower_c w = true)
    by (apply (drop_exists _ (String.length w - String.length "'s")); rewrite H; reflexivity).
  rewrite Hl. apply andb_false_r.
Qed.

(** C1 (amended): for a token ending in ['s] whose base is in neither fixed
    set, the verdict is "contraction" exactly when the token has at least
    three characters, the base does not end in s, x, z, ch or sh, and the
    first character is not an upper-case letter.  On a "possessive" verdict
    the callback returns the token unchanged; on a "contraction" verdict it
    returns the table's expansion of the lower-cased token exactly as
    stored (the token is neither all upper-case nor capitalised), and keeps
    the token when the table has no entry for it. *)
Theorem C1_possessive_rule (d : dict) (w : string) :
  ends_with "'s" w = true ->
  in_set (s_base w) CONTRACTION_BASES = false ->
  in_set (s_base w) TIME_WORDS = false ->
  (is_contraction_s w = true <->
     3 <= String.length w /\ sibilant_end (s_base w) = false /\
     exists c, String.get 0 w = Some c /\ is_upper_c c = false) /\
  (is_contraction_s w = false -> replace_match d w = Some w) /\
  (is_contraction_s w = true -> forall E, dict_get (str_lower w) d = Some E ->
     replace_match d w = Some E) /\
  (is_contraction_s w = true -> dict_get (str_lower w) d = None -> replace_match d w = Some w).
Proof.
  intros Hend Hb Ht.
  assert (Hiff : is_contraction_s w = true <->
     3 <= String.length w /\ sibilant_end (s_base w) = false /\
     exists c, String.get 0 w = Some c /\ is_upper_c c = false).
  { unfold is_contraction_s. fold (s_base w). rewrite Hb, Ht.
    fold (sibilant_end (s_base w)).
    destruct (Nat.ltb (String.length w) 3) eqn:Elen.
    + apply Nat.ltb_lt in Elen. split; [discriminate | intros [H _]; lia].
    + apply Nat.ltb_ge in Elen.
      destruct (sibilant_end (s_base w)) eqn:Es.
      * split; [discriminate | intros [_ [H _]]; discriminate].
      * destruct (String.get 0 w) as [c|] eqn:Eg.
        -- split.
           ++ intros H. rewrite negb_true_iff in H. repeat split; [lia | exists c; auto].
           ++ intros [_ [_ [c' [Hc' Hu]]]]. injection Hc' as <-. rewrite Hu. reflexivity.
        -- split; [discriminate | intros [_ [_ [c' [Hc' _]]]]; discriminate]. }
  split; [exact Hiff|]. split; [|split].
  - intros Hnot. unfold replace_match. rewrite Hend, Hnot. reflexivity.
  - intros Hc E HE. unfold replace_match. rewrite Hend, Hc. cbn [orb andb negb].
    rewrite HE. unfold recase. rewrite (s_token_not_isupper w Hend).
    destruct (proj1 Hiff Hc) as (_ & _ & c & Hg & Hu). rewrite Hg, Hu. reflexivity.
  - intros Hc HN. unfold replace_match. rewrite Hend, Hc. cbn [orb andb negb].
    rewrite HN, replace_char_same, HN. reflexivity.
Qed.

Lemma C1_possessive_rule_witness :
  replace_match sample_standard "John's" = Some "John's" /\
  replace_match [("dog's", "dog is")] "dog's" = Some "dog is".
Proof.
  split.
  - apply (proj1 (proj2 (C1_possessive_rule sample_standard "John's"
             eq_refl eq_refl eq_refl))).
    reflexivity.
  - apply (proj1 (proj2 (proj2 (C1_possessive_rule [("dog's", "dog is")] "dog's"
             eq_refl eq_refl eq_refl)))); reflexivity.
Defined.

(** C3 (amended): a replaced match [m] with stored expansion [E] gives
    [E.upper()] when [m.isupper()], else [E.capitalize()] (first character
    upper-cased, all others lower-cased) when the first character of [m] is
    an upper-case letter, else [E] as stored. *)
Theorem C3_case_rule (d : dict) (m E : string) (c : ascii) (rest : string) :
  m = String c rest ->
  dict_get (str_lower m) d = Some E ->
  ((ends_with "'s" m || ends_with "'s" m) && negb (is_contraction_s m)) = false ->
  replace_match d m =
    Some (if py_isupper m then str_upper E
          else if is_upper_c c then capitalize E else E) /\
  capitalize E = match E with
                 | EmptyString => EmptyString
                 | String a r => String (upper_c a) (str_lower r)
                 end.
Proof.
  intros Hm Hget Hkept. split; [|reflexivity].
  unfold replace_match. rewrite Hkept. rewrite Hget. unfold recase.
  destruct (py_isupper m); [reflexivity|]. subst m. simpl.
  destruct (is_upper_c c); reflexivity.
Qed.

Lemma C3_case_rule_witness :
  replace_match sample_standard "It's" = Some "It is" /\
  replace_match sample_standard "IT'S" = Some "IT IS".
Proof.
  split.
  - refine (eq_trans (proj1 (C3_case_rule sample_standard "It's" "it is" "I" "t's"
                               eq_refl _ _)) _); reflexivity.
  - refine (eq_trans (proj1 (C3_case_rule sample_standard "IT'S" "it is" "I" "T'S"
                               eq_refl _ _)) _); reflexivity.
Defined.

(** ** Month entries *)

Lemma dict_get_update_absent (k : string) (d e : dict) :
  dict_get k e = None -> dict_get k (dict_update d e) = dict_get k d.
Proof.
  revert d. induction e as [|[k' v'] r IH]; intros d H; [reflexivity|].
  simpl in H. destruct (String.eqb k k') eqn:E; [discriminate|].
  unfold dict_update. simpl. fold (dict_update (dict_set k' v' d) r).
  rewrite IH by exact H. apply dict_get_set_neq. apply String.eqb_neq. exact E.
Qed.

Section FoldSet.

Variable f : string -> string.

Lemma fold_set_other (l : list string) (d : dict) (k : string) :
  (forall m, In m l -> f m <> k) ->
  dict_get k (fold_left (fun (d : dict) m => dict_set (f m) m d) l d) = dict_get k d.
Proof.
  revert d. induction l as [|x r IH]; intros d H; [reflexivity|].
  simpl. rewrite IH by (intros m Hm; apply H; right; exact Hm).
  apply dict_get_set_neq. intros Heq. apply (H x); [left; reflexivity | symmetry; exact Heq].
Qed.

Lemma fold_set_member (l : list string) (d : dict) (m : string) :
  NoDup (map f l) -> In m l ->
  dict_get (f m) (fold_left (fun (d : dict) m => dict_set (f m) m d) l d) = Some m.
Proof.
  revert d. induction l as [|x r IH]; intros d Hnd Hin; [destruct Hin|].
  simpl in Hnd. inversion Hnd as [|? ? Hx Hnd']; subst.
  simpl. destruct Hin as [<-|Hin].
  - rewrite fold_set_other.
    + apply dict_get_set_eq.
    + intros m Hm Heq. apply Hx. rewrite <- Heq. apply in_map. exact Hm.
  - apply IH; assumption.
Qed.

End FoldSet.

Lemma months_abbrev_nodup : NoDup (map month_abbrev MONTHS).
Proof. vm_compute. repeat constructor; simpl; intuition discriminate. Qed.

Lemma month_abbrev_length (m : string) : In m MONTHS -> String.length (month_abbrev m) = 4.
Proof. simpl. intros H. repeat destruct H as [<-|H]; try reflexivity. destruct H. Qed.

(** ** The compiled matcher *)

Definition longer_or_eq (a b : string) : Prop := String.length b <= String.length a.

Lemma in_insert_key (x z : string) (l : list string) :
  In z (insert_key x l) <-> z = x \/ In z l.
Proof.
  induction l as [|y r IH]; simpl.
  - intuition.
  - destruct (key_leb x y); simpl; [intuition|]. rewrite IH. intuition.
Qed.

Lemma in_sort_keys (z : string) (l : list string) : In z (sort_keys l) <-> In z l.
Proof.
  induction l as [|x r IH]; simpl; [reflexivity|].
  rewrite in_insert_key, IH. intuition.
Qed.

Lemma key_leb_length (a b : string) :
  (key_leb a b = true -> String.length b <= String.length a) /\
  (key_leb a b = false -> String.length a <= String.length b).
Proof.
  unfold key_leb. split; intros H.
  - apply orb_true_iff in H as [H|H].
    + apply Nat.ltb_lt in H. lia.
    + apply andb_true_iff in H as [H _]. apply Nat.eqb_eq in H. lia.
  - apply orb_false_iff in H as [H _]. apply Nat.ltb_ge in H. exact H.
Qed.

Lemma insert_key_sorted (x : string) (l : list string) :
  StronglySorted longer_or_eq l -> StronglySorted longer_or_eq (insert_key x l).
Proof.
  induction l as [|y r IH]; intros Hs; simpl.
  - repeat constructor.
  - apply StronglySorted_inv in Hs as [Hr Hy].
    destruct (key_leb x y) eqn:E.
    + apply key_leb_length in E. constructor; [constructor; assumption|].
      constructor; [exact E|]. rewrite Forall_forall in *.
      intros z Hz. specialize (Hy z Hz). unfold longer_or_eq in *. lia.
    + apply key_leb_length in E. constructor; [apply IH; exact Hr|].
      rewrite Forall_forall in *. intros z Hz. apply in_insert_key in Hz as [->|Hz].
      * exact E.
      * apply Hy. exact Hz.
Qed.

Lemma sort_keys_sorted (l : list string) : StronglySorted longer_or_eq (sort_keys l).
Proof.
  induction l as [|x r IH]; simpl; [constructor|]. apply insert_key_sorted. exact IH.
Qed.

Lemma filter_sorted (f : string -> bool) (l : list string) :
  StronglySorted longer_or_eq l -> StronglySorted longer_or_eq (filter f l).
Proof.
  induction l as [|x r IH]; intros Hs; simpl; [constructor|].
  apply StronglySorted_inv in Hs as [Hr Hx].
  destruct (f x); [|apply IH; exact Hr].
  constructor; [apply IH; exact Hr|].
  rewrite Forall_forall in *. intros z Hz. apply filter_In in Hz as [Hz _]. apply Hx. exact Hz.
Qed.

Lemma first_ok_some (ok : string -> bool) (l : list string) (k : string) :
  first_ok ok l = Some k -> In k l /\ ok k = true.
Proof.
  induction l as [|x r IH]; simpl; [discriminate|].
  destruct (ok x) eqn:E.
  - intros H. injection H as <-. auto.
  - intros H. apply IH in H as [H1 H2]. auto.
Qed.

Lemma first_ok_none (ok : string -> bool) (l : list string) :
  first_ok ok l = None -> forall k, In k l -> ok k = false.
Proof.
  induction l as [|x r IH]; simpl; [intros _ k []|].
  destruct (ok x) eqn:E; [discriminate|].
  intros H k [<-|Hk]; [exact E | apply IH; assumption].
Qed.

Lemma first_ok_longest (ok : string -> bool) (l : list string) (k : string) :
  StronglySorted longer_or_eq l -> first_ok ok l = Some k ->
  forall k', In k' l -> ok k' = true -> String.length k' <= String.length k.
Proof.
  induction l as [|x r IH]; simpl; [discriminate|].
  intros Hs. apply StronglySorted_inv in Hs as [Hr Hx]. rewrite Forall_forall in Hx.
  destruct (ok x) eqn:E.
  - intros H. injection H as <-. intros k' [<-|Hk'] _; [lia | apply Hx; exact Hk'].
  - intros H k' [<-|Hk'] Hok; [congruence | eapply IH; eauto].
Qed.

(** Characters and positions. *)

Lemma str_exists_get (p : ascii -> bool) (s : string) :
  str_exists p s = true -> exists i a, String.get i s = Some a /\ p a = true.
Proof.
  induction s as [|c s IH]; simpl; [discriminate|].
  intros H. apply orb_true_iff in H as [H|H].
  - exists 0, c. auto.
  - apply IH in H as (i & a & Hg & Hp). exists (S i), a. auto.
Qed.

Lemma get_str_exists (p : ascii -> bool) (s : string) (i : nat) (a : ascii) :
  String.get i s = Some a -> p a = true -> str_exists p s = true.
Proof.
  revert i. induction s as [|c s IH]; intros i Hg Hp; simpl; [destruct i; discriminate|].
  destruct i as [|i]; simpl in Hg.
  - injection Hg as ->. rewrite Hp. reflexivity.
  - rewrite (IH i Hg Hp). apply orb_true_r.
Qed.

Lemma get_lt (s : string) (i : nat) :
  i < String.length s -> exists a, String.get i s = Some a.
Proof.
  revert i. induction s as [|c s IH]; intros i H; simpl in H; [lia|].
  destruct i as [|i]; simpl; [eauto | apply IH; lia].
Qed.

Lemma get_some_lt (s : string) (i : nat) (a : ascii) :
  String.get i s = Some a -> i < String.length s.
Proof.
  revert i. induction s as [|c s IH]; intros i H; simpl in *; [destruct i; discriminate|].
  destruct i as [|i]; [lia|]. apply IH in H. lia.
Qed.

Lemma prefix_ci_get (k s : string) (i : nat) (a : ascii) :
  prefix_ci k s = true -> String.get i k = Some a ->
  exists b, String.get i s = Some b /\ ci_eq a b = true.
Proof.
  revert s i. induction k as [|c k IH]; intros s i Hp Hg; [destruct i; discriminate|].
  destruct s as [|b s]; simpl in Hp; [discriminate|].
  apply andb_true_iff in Hp as [Hc Hp].
  destruct i as [|i]; simpl in Hg.
  - injection Hg as <-. exists b. auto.
  - simpl. apply IH; assumption.
Qed.

Lemma lower_c_apos (c : ascii) : lower_c c = "'"%char -> c = "'"%char.
Proof.
  unfold lower_c. destruct (is_upper_c c) eqn:E; [|auto].
  intros H. exfalso. unfold is_upper_c in E.
  apply andb_true_iff in E as [E1 E2]. apply Nat.leb_le in E1, E2.
  apply (f_equal nat_of_ascii) in H. rewrite nat_ascii_embedding in H by lia.
  replace (nat_of_ascii "'"%char) with 39 in H by reflexivity. lia.
Qed.

Lemma ci_eq_apos (a b : ascii) :
  ci_eq a b = true -> (a = "'"%char <-> b = "'"%char).
Proof.
  unfold ci_eq. intros H. apply Ascii.eqb_eq in H. split; intros ->.
  - symmetry in H. apply lower_c_apos. exact H.
  - apply lower_c_apos. exact H.
Qed.

(** A plain key cannot run past the apostrophe of an apostrophe key
    matched at the same place. *)
Lemma plain_not_longer (t : string) (p : nat) (k k' : string) :
  has_apos k = true -> occurs_ci k t p = true ->
  has_apos k' = false -> occurs_ci k' t p = true ->
  String.length k' <= String.length k.
Proof.
  intros Hk Hok Hk' Hok'.
  assert (Ha : str_has "'" k = true) by (unfold has_apos in Hk; rewrite orb_diag in Hk; exact Hk).
  apply str_exists_get in Ha as (i & a & Hg & Ha). apply Ascii.eqb_eq in Ha. subst a.
  destruct (Nat.le_gt_cases (String.length k') (String.length k)) as [Hle|Hgt]; [exact Hle|].
  exfalso. pose proof (get_some_lt _ _ _ Hg) as Hi.
  destruct (get_lt k' i) as [a' Hg']; [lia|].
  destruct (prefix_ci_get _ _ _ _ Hok Hg) as (b & Hb & Hab).
  destruct (prefix_ci_get _ _ _ _ Hok' Hg') as (b' & Hb' & Hab').
  rewrite Hb in Hb'. injection Hb' as <-.
  apply ci_eq_apos in Hab. apply ci_eq_apos in Hab'.
  assert (Ha' : a' = "'"%char) by (apply Hab'; apply Hab; reflexivity). subst a'.
  assert (Hs : str_has "'" k' = true)
    by (apply (get_str_exists _ _ _ _ Hg'); apply Ascii.eqb_refl).
  unfold has_apos in Hk'. rewrite Hs in Hk'. discriminate.
Qed.

Lemma apos_alts_spec (keys : list string) (k : string) :
  In k (apos_alts (compile_pattern keys)) <-> In k keys /\ has_apos k = true.
Proof. simpl. rewrite filter_In, in_sort_keys. reflexivity. Qed.

Lemma word_alts_spec (keys : list string) (k : string) :
  In k (word_alts (compile_pattern keys)) <-> In k keys /\ has_apos k = false.
Proof. simpl. rewrite filter_In, in_sort_keys, negb_true_iff. reflexivity. Qed.

Lemma apos_ok_occurs (t : string) (p : nat) (k : string) :
  apos_ok t p k = true -> occurs_ci k t p = true.
Proof. unfold apos_ok. intros H. apply andb_true_iff in H as [H _]. apply andb_true_iff in H. tauto. Qed.

Lemma word_ok_occurs (t : string) (p : nat) (k : string) :
  word_ok t p k = true -> occurs_ci k t p = true.
Proof. unfold word_ok. intros H. apply andb_true_iff in H as [H _]. apply andb_true_iff in H. tauto. Qed.

(** Whatever one attempt of the pattern returns is an eligible key. *)
Lemma match_at_eligible (keys : list string) (t : string) (p : nat) (k : string) :
  match_at (compile_pattern keys) t p = Some k -> eligible keys t p k.
Proof.
  unfold match_at. destruct (first_ok (apos_ok t p) _) as [ka|] eqn:Ea.
  - intros H. injection H as <-. apply first_ok_some in Ea as [Hin Hok].
    apply apos_alts_spec in Hin as [Hin Ha]. split; [exact Hin|]. rewrite Ha. exact Hok.
  - intros H. apply first_ok_some in H as [Hin Hok].
    apply word_alts_spec in Hin as [Hin Ha]. split; [exact Hin|]. rewrite Ha. exact Hok.
Qed.

(** C2: at every position the compiled matcher returns an eligible key that
    is at least as long as every other eligible key there, across both
    partitions, and it returns some key whenever one is eligible. *)
Theorem C2_longest_eligible_match (keys : list string) (t : string) (p : nat) :
  (forall k, match_at (compile_pattern keys) t p = Some k ->
     eligible keys t p k /\
     forall k', eligible keys t p k' -> String.length k' <= String.length k) /\
  ((exists k', eligible keys t p k') -> match_at (compile_pattern keys) t p <> None).
Proof.
  pose proof (filter_sorted has_apos _ (sort_keys_sorted keys)) as SA.
  pose proof (filter_sorted (fun k => negb (has_apos k)) _ (sort_keys_sorted keys)) as SW.
  split.
  - intros k Hm. split; [apply match_at_eligible; exact Hm|].
    intros k' [Hin' Hok']. unfold match_at in Hm.
    destruct (first_ok (apos_ok t p) (apos_alts (compile_pattern keys))) as [ka|] eqn:Ea.
    + injection Hm as <-. pose proof (first_ok_some _ _ _ Ea) as [Hin Hok].
      apply apos_alts_spec in Hin as [_ Ha].
      destruct (has_apos k') eqn:Ha'.
      * eapply first_ok_longest; [exact SA | exact Ea | | exact Hok'].
        apply apos_alts_spec. auto.
      * eapply plain_not_longer; eauto using apos_ok_occurs, word_ok_occurs.
    + destruct (has_apos k') eqn:Ha'.
      * exfalso. assert (Hin : In k' (apos_alts (compile_pattern keys)))
          by (apply apos_alts_spec; auto).
        rewrite (first_ok_none _ _ Ea k' Hin) in Hok'. discriminate.
      * eapply first_ok_longest; [exact SW | exact Hm | | exact Hok'].
        apply word_alts_spec. auto.
  - intros [k' [Hin' Hok']] Hm. unfold match_at in Hm.
    destruct (first_ok (apos_ok t p) (apos_alts (compile_pattern keys))) eqn:Ea;
      [discriminate|].
    destruct (has_apos k') eqn:Ha'.
    + assert (Hin : In k' (apos_alts (compile_pattern keys))) by (apply apos_alts_spec; auto).
      rewrite (first_ok_none _ _ Ea k' Hin) in Hok'. discriminate.
    + assert (Hin : In k' (word_alts (compile_pattern keys))) by (apply word_alts_spec; auto).
      rewrite (first_ok_none _ _ Hm k' Hin) in Hok'. discriminate.
Qed.

Example ex_would_have :
  match_at (compile_pattern (dict_keys [("would", "w"); ("would have", "w h"); ("d've", "dv")]))
    "I would have gone" 2 = Some "would have".
Proof. vm_compute. reflexivity. Qed.

(** ** Month keys under the plain-word boundary rule *)

Lemma get_drop (t : string) (p i : nat) : String.get i (str_drop p t) = String.get (p + i) t.
Proof.
  revert t. induction p as [|p IH]; intros t; [reflexivity|].
  destruct t as [|c t]; simpl; [destruct i; reflexivity | apply IH].
Qed.

Lemma lower_c_fixed (c d : ascii) :
  is_lower_c d = false -> lower_c c = d -> c = d.
Proof.
  unfold lower_c. destruct (is_upper_c c) eqn:E; [|auto].
  intros Hd H. exfalso. subst d. unfold is_upper_c, is_lower_c in *.
  apply andb_true_iff in E as [E1 E2]. apply Nat.leb_le in E1, E2.
  rewrite nat_ascii_embedding in Hd by lia.
  apply andb_false_iff in Hd as [Hd|Hd]; apply Nat.leb_gt in Hd; lia.
Qed.

Lemma eligible_occurs (keys : list string) (t : string) (p : nat) (k : string) :
  eligible keys t p k -> occurs_ci k t p = true.
Proof.
  intros [_ Hok]. destruct (has_apos k).
  - apply apos_ok_occurs. exact Hok.
  - apply word_ok_occurs. exact Hok.
Qed.

Lemma month_facts (m : string) :
  In m MONTHS ->
  has_apos (month_abbrev m) = false /\ String.length (month_abbrev m) = 4 /\
  String.get 3 (month_abbrev m) = Some "."%char.
Proof. simpl. intros H. repeat destruct H as [<-|H]; try (repeat split; reflexivity). destruct H. Qed.

Lemma month_table_keys : dict_keys month_table = map month_abbrev MONTHS.
Proof. vm_compute. reflexivity. Qed.

Lemma find_from_nomatch (pat : pattern) (t : string) (fuel p : nat) :
  (forall q, match_at pat t q = None) -> find_from pat t fuel p = [].
Proof.
  intros H. revert p. induction fuel as [|f IH]; intros p; simpl; [reflexivity|].
  destruct (Nat.ltb (String.length t) p); [reflexivity|]. rewrite H. apply IH.
Qed.

(** C9: a month key ends in a period, a non-word character, so its trailing
    [\b] holds only when a word character follows; the key never matches
    where a non-word character or the end of the text follows, and under the
    month entries alone such a text is returned unchanged by [fix]. *)
Theorem C9_month_abbrev_never_matches_before_nonword :
  (forall (keys : list string) (t : string) (p : nat) (m : string),
     In m MONTHS -> word_at t (p + 4) = false ->
     match_at (compile_pattern keys) t p <> Some (month_abbrev m)) /\
  (forall t : string,
     (forall p m, In m MONTHS -> occurs_ci (month_abbrev m) t p = true ->
                  word_at t (p + 4) = false) ->
     fix_text month_table t = Some t).
Proof.
  assert (Part1 : forall (keys : list string) (t : string) (p : nat) (m : string),
            In m MONTHS -> word_at t (p + 4) = false ->
            match_at (compile_pattern keys) t p <> Some (month_abbrev m)).
  { intros keys t p m Hm Hnext Hmatch.
    apply match_at_eligible in Hmatch as Hel.
    pose proof (eligible_occurs _ _ _ _ Hel) as Hocc.
    destruct Hel as [_ Hok]. destruct (month_facts m Hm) as (Ha & Hl & Hdot).
    rewrite Ha in Hok. unfold word_ok in Hok. rewrite Hl in Hok.
    destruct (prefix_ci_get _ _ _ _ Hocc Hdot) as (b & Hb & Hci).
    rewrite get_drop in Hb. unfold ci_eq in Hci. apply Ascii.eqb_eq in Hci.
    assert (Hb' : lower_c b = "."%char) by (rewrite <- Hci; reflexivity).
    apply lower_c_fixed in Hb'; [|reflexivity]. subst b.
    assert (Hprev : word_before t (p + 4) = false).
    { replace (p + 4) with (S (p + 3)) by lia. simpl. unfold word_at. rewrite Hb. reflexivity. }
    unfold boundary in Hok. rewrite Hprev, Hnext in Hok.
    rewrite andb_false_r in Hok. discriminate. }
  split; [exact Part1|].
  intros t Hall. unfold fix_text, fix_with, re_sub, finditer.
  rewrite find_from_nomatch; [apply splice_nil|].
  intros q. destruct (match_at _ t q) as [k|] eqn:Hq; [exfalso|reflexivity].
  pose proof (match_at_eligible _ _ _ _ Hq) as Hel.
  pose proof (eligible_occurs _ _ _ _ Hel) as Hocc.
  destruct Hel as [Hin _]. rewrite month_table_keys in Hin.
  apply in_map_iff in Hin as (m & <- & Hm).
  apply (Part1 (dict_keys month_table) t q m Hm); [exact (Hall q m Hm Hocc) | exact Hq].
Qed.

Example ex_month_space : fix_text month_table "see jan. 5" = Some "see jan. 5".
Proof. vm_compute. reflexivity. Qed.
Example ex_month_word : fix_text month_table "jan.x" = Some "januaryx".
Proof. vm_compute. reflexivity. Qed.

(** ** The reverse table *)

(** A standard entry that [_build_reverse_dict_optimized] considers for the
    expansion [e]. *)
Definition rev_candidate (e : string) (kv : string * string) : bool :=
  String.eqb (str_lower (snd kv)) e && in_set e SAFE_CONTRACTIONS
  && str_has "'" (fst kv) && Nat.ltb 2 (String.length (fst kv)).

(** After the entries [pre], the registered contraction of [e] is one of
    its candidates, not apostrophe-prefixed and no longer than any
    non-prefixed candidate. *)
Definition rev_inv (pre rd : dict) : Prop :=
  forall e,
    match dict_get e rd with
    | None => forall kv, In kv pre -> rev_candidate e kv = false
    | Some c =>
        (exists kv, In kv pre /\ rev_candidate e kv = true /\ fst kv = c) /\
        (forall kv, In kv pre -> rev_candidate e kv = true ->
           starts_with "'" (fst kv) = false ->
           starts_with "'" c = false /\ String.length c <= String.length (fst kv))
    end.

Lemma rev_candidate_expansion (e c x : string) :
  rev_candidate e (c, x) = true ->
  e = str_lower x /\
  (in_set (str_lower x) SAFE_CONTRACTIONS && str_has "'" c && Nat.ltb 2 (String.length c)) = true.
Proof.
  unfold rev_candidate; simpl. intros H.
  apply andb_true_iff in H as [H H3]. apply andb_true_iff in H as [H H2].
  apply andb_true_iff in H as [H1 H0]. apply String.eqb_eq in H1. subst e.
  rewrite H0, H2, H3. auto.
Qed.

Lemma rev_candidate_intro (c x : string) :
  (in_set (str_lower x) SAFE_CONTRACTIONS && str_has "'" c && Nat.ltb 2 (String.length c)) = true ->
  rev_candidate (str_lower x) (c, x) = true.
Proof.
  unfold rev_candidate; simpl. intros H. rewrite String.eqb_refl. exact H.
Qed.

Lemma rev_inv_step (pre rd : dict) (kv : string * string) :
  rev_inv pre rd -> rev_inv (app pre [kv]) (reverse_step rd kv).
Proof.
  intros Hinv e. destruct kv as [c x]. unfold reverse_step.
  set (el := str_lower x).
  assert (Hin : forall kv, In kv (app pre [(c, x)]) <-> In kv pre \/ kv = (c, x))
    by (intros kv; rewrite in_app_iff; simpl; intuition).
  destruct (in_set el SAFE_CONTRACTIONS && str_has "'" c && Nat.ltb 2 (String.length c)) eqn:Cond.
  2:{ (* the entry is not a candidate for anything *)
    assert (Hnc : rev_candidate e (c, x) = false).
    { destruct (rev_candidate e (c, x)) eqn:E; [|reflexivity].
      apply rev_candidate_expansion in E as [-> E]. fold el in E. congruence. }
    specialize (Hinv e). destruct (dict_get e rd) as [r|].
    - destruct Hinv as [[kv0 [H1 [H2 H3]]] H4]. split.
      + exists kv0. rewrite Hin. auto.
      + intros kv Hkv. apply Hin in Hkv as [Hkv| ->]; [apply H4; exact Hkv | congruence].
    - intros kv Hkv. apply Hin in Hkv as [Hkv| ->]; [apply Hinv; exact Hkv | exact Hnc]. }
  assert (Hcand : rev_candidate el (c, x) = true) by (apply rev_candidate_intro; exact Cond).
  destruct (String.eqb e el) eqn:Eel.
  2:{ (* another expansion: its entry is untouched *)
    apply String.eqb_neq in Eel.
    assert (Hnc : rev_candidate e (c, x) = false).
    { destruct (rev_candidate e (c, x)) eqn:E; [|reflexivity].
      apply rev_candidate_expansion in E as [E _]. contradiction. }
    assert (Hget : forall rd', rd' = rd \/ rd' = dict_set el c rd -> dict_get e rd' = dict_get e rd).
    { intros rd' [->| ->]; [reflexivity | apply dict_get_set_neq; exact Eel]. }
    assert (Hgoal : forall rd', rd' = rd \/ rd' = dict_set el c rd ->
              match dict_get e rd' with
              | None => forall kv, In kv (app pre [(c, x)]) -> rev_candidate e kv = false
              | Some c0 =>
                  (exists kv, In kv (app pre [(c, x)]) /\ rev_candidate e kv = true /\ fst kv = c0) /\
                  (forall kv, In kv (app pre [(c, x)]) -> rev_candidate e kv = true ->
                     starts_with "'" (fst kv) = false ->
                     starts_with "'" c0 = false /\ String.length c0 <= String.length (fst kv))
              end).
    { intros rd' Hrd'. rewrite (Hget rd' Hrd'). specialize (Hinv e).
      destruct (dict_get e rd) as [r|].
      - destruct Hinv as [[kv0 [H1 [H2 H3]]] H4]. split.
        + exists kv0. rewrite Hin. auto.
        + intros kv Hkv. apply Hin in Hkv as [Hkv| ->]; [apply H4; exact Hkv | congruence].
      - intros kv Hkv. apply Hin in Hkv as [Hkv| ->]; [apply Hinv; exact Hkv | exact Hnc]. }
    destruct (dict_get el rd) as [ex|];
      [destruct (_ || _); apply Hgoal; auto | apply Hgoal; auto]. }
  apply String.eqb_eq in Eel. subst e.
  specialize (Hinv el).
  destruct (dict_get el rd) as [ex|] eqn:Eex.
  - destruct Hinv as [[kv0 [H1 [H2 H3]]] H4].
    destruct ((negb (starts_with "'" c) && starts_with "'" ex)
              || (Nat.ltb (String.length c) (String.length ex) && negb (starts_with "'" c))) eqn:U.
    + rewrite dict_get_set_eq. split.
      * exists (c, x). rewrite Hin. auto.
      * intros kv Hkv Hc Hnp. apply Hin in Hkv as [Hkv| ->].
        -- destruct (H4 kv Hkv Hc Hnp) as [Hex Hlen].
           rewrite Hex, andb_false_r, orb_false_l in U.
           apply andb_true_iff in U as [U1 U2]. apply Nat.ltb_lt in U1.
           apply negb_true_iff in U2. split; [exact U2 | lia].
        -- simpl in *. split; [exact Hnp | lia].
    + rewrite Eex. split.
      * exists kv0. rewrite Hin. auto.
      * intros kv Hkv Hc Hnp. apply Hin in Hkv as [Hkv| ->]; [apply H4; assumption|].
        simpl in *. rewrite Hnp in U. simpl in U.
        apply orb_false_iff in U as [U1 U2]. rewrite andb_true_r in U2.
        apply Nat.ltb_ge in U2. split; [exact U1 | exact U2].
  - rewrite dict_get_set_eq. split.
    + exists (c, x). rewrite Hin. auto.
    + intros kv Hkv Hc Hnp. apply Hin in Hkv as [Hkv| ->].
      * rewrite (Hinv kv Hkv) in Hc. discriminate.
      * simpl in *. split; [exact Hnp | lia].
Qed.

Lemma rev_inv_fold (l pre rd : dict) :
  rev_inv pre rd -> rev_inv (app pre l) (fold_left reverse_step l rd).
Proof.
  revert pre rd. induction l as [|kv r IH]; intros pre rd H; simpl.
  - rewrite app_nil_r. exact H.
  - replace (app pre (kv :: r)) with (app (app pre [kv]) r) by (rewrite <- app_assoc; reflexivity).
    apply IH. apply rev_inv_step. exact H.
Qed.

Lemma rev_inv_nil : rev_inv [] [].
Proof. intros e. simpl. intros kv []. Qed.

Lemma in_keys_set (z k v : string) (d : dict) :
  In z (dict_keys (dict_set k v d)) <-> z = k \/ In z (dict_keys d).
Proof.
  induction d as [|[k' v'] r IH]; simpl; [intuition|].
  destruct (String.eqb k k') eqn:E; simpl.
  - apply String.eqb_eq in E. subst k'. intuition.
  - rewrite IH. intuition.
Qed.

Lemma nodup_set (k v : string) (d : dict) :
  NoDup (dict_keys d) -> NoDup (dict_keys (dict_set k v d)).
Proof.
  induction d as [|[k' v'] r IH]; simpl; intros H.
  - repeat constructor. intros [].
  - inversion H as [|? ? Hk Hr]; subst.
    destruct (String.eqb k k') eqn:E; simpl.
    + apply String.eqb_eq in E. subst k'. constructor; assumption.
    + constructor; [|apply IH; exact Hr].
      rewrite in_keys_set. apply String.eqb_neq in E. intuition.
Qed.

Lemma nodup_update (d e : dict) : NoDup (dict_keys d) -> NoDup (dict_keys (dict_update d e)).
Proof.
  revert d. induction e as [|[k v] r IH]; intros d H; [exact H|].
  unfold dict_update. simpl. apply IH. apply nodup_set. exact H.
Qed.

Lemma nodup_reverse_fold (l rd : dict) :
  NoDup (dict_keys rd) -> NoDup (dict_keys (fold_left reverse_step l rd)).
Proof.
  revert rd. induction l as [|[c x] r IH]; intros rd H; [exact H|].
  simpl. apply IH. unfold reverse_step.
  destruct (_ && _ && _); [|exact H].
  destruct (dict_get _ rd); [destruct (_ || _)|]; try apply nodup_set; exact H.
Qed.

Lemma nodup_get (k v : string) (d : dict) :
  NoDup (dict_keys d) -> In (k, v) d -> dict_get k d = Some v.
Proof.
  induction d as [|[k' v'] r IH]; simpl; intros Hnd Hin; [destruct Hin|].
  inversion Hnd as [|? ? Hk Hr]; subst.
  destruct Hin as [Heq|Hin].
  - injection Heq as -> ->. rewrite String.eqb_refl. reflexivity.
  - destruct (String.eqb k k') eqn:E.
    + apply String.eqb_eq in E. subst k'. exfalso. apply Hk.
      apply (in_map fst) in Hin. exact Hin.
    + apply IH; assumption.
Qed.

Lemma dict_get_pop_eq (k : string) (d : dict) :
  NoDup (dict_keys d) -> dict_get k (dict_pop k d) = None.
Proof.
  induction d as [|[k' v'] r IH]; simpl; intros Hnd; [reflexivity|].
  inversion Hnd as [|? ? Hk Hr]; subst.
  destruct (String.eqb k k') eqn:E.
  - apply String.eqb_eq in E. subst k'.
    destruct (dict_get k r) eqn:G; [|reflexivity]. exfalso. apply Hk.
    clear -G. induction r as [|[a b] r IH]; simpl in *; [discriminate|].
    destruct (String.eqb k a) eqn:E; [left; apply String.eqb_eq in E; auto | right; auto].
  - simpl. rewrite E. apply IH. exact Hr.
Qed.

Lemma in_dict_set (kv : string * string) (k v : string) (d : dict) :
  In kv (dict_set k v d) -> kv = (k, v) \/ In kv d.
Proof.
  induction d as [|[k' v'] r IH]; simpl; [intuition|].
  destruct (String.eqb k k'); simpl; intuition.
Qed.

Lemma alt_apostrophe_id (s : string) : alt_apostrophe s = s.
Proof. apply replace_char_same. Qed.

Lemma in_alt_reverse (l acc : dict) (kv : string * string) :
  In kv (fold_left (fun (acc : dict) (kv : string * string) =>
                 if str_has "'" (snd kv) then dict_set (fst kv) (alt_apostrophe (snd kv)) acc
                 else acc) l acc) -> In kv acc \/ In kv l.
Proof.
  revert acc. induction l as [|[k v] r IH]; intros acc H; simpl in *; [auto|].
  apply IH in H as [H|H]; [|auto].
  destruct (str_has "'" v); [|auto].
  rewrite alt_apostrophe_id in H. apply in_dict_set in H as [H|H]; auto.
Qed.

Lemma update_agreeing (d e : dict) :
  (forall kv, In kv e -> dict_get (fst kv) d = Some (snd kv)) ->
  forall k, dict_get k (dict_update d e) = dict_get k d.
Proof.
  revert d. induction e as [|[k' v'] r IH]; intros d H k; [reflexivity|].
  unfold dict_update. simpl. fold (dict_update (dict_set k' v' d) r).
  assert (Hsame : forall z, dict_get z (dict_set k' v' d) = dict_get z d).
  { intros z. destruct (String.eqb z k') eqn:E.
    - apply String.eqb_eq in E. subst z. rewrite dict_get_set_eq.
      symmetry. apply (H (k', v')). left. reflexivity.
    - apply dict_get_set_neq. apply String.eqb_neq. exact E. }
  rewrite IH, Hsame; [reflexivity|].
  intros kv Hkv. rewrite Hsame. apply H. right. exact Hkv.
Qed.

Lemma init_reverse (std inf sl : dict) (ui us : bool) (k : string) :
  dict_get k (Engine.reverse_dict (Engine.init std inf sl ui us)) =
  dict_get k (build_reverse_dict (load_dict std) ui).
Proof.
  unfold Engine.init, add_alt_apostrophes. simpl.
  set (rd := build_reverse_dict (load_dict std) ui).
  assert (Hnd : NoDup (dict_keys rd)).
  { unfold rd, build_reverse_dict.
    assert (H0 : NoDup (dict_keys (fold_left reverse_step (load_dict std) [])))
      by (apply nodup_reverse_fold; constructor).
    destruct ui; [apply nodup_update|]; exact H0. }
  apply update_agreeing. intros kv Hkv.
  apply in_alt_reverse in Hkv as [[]|Hkv].
  destruct kv as [a b]. apply nodup_get; assumption.
Qed.

Lemma safe_informal_not_safe (e : string) :
  dict_get e SAFE_INFORMAL <> None -> in_set e SAFE_CONTRACTIONS = false.
Proof.
  simpl. destruct (String.eqb e "going") eqn:E1; [apply String.eqb_eq in E1; subst; reflexivity|].
  destruct (String.eqb e "doing") eqn:E2; [apply String.eqb_eq in E2; subst; reflexivity|].
  destruct (String.eqb e "nothing") eqn:E3; [apply String.eqb_eq in E3; subst; reflexivity|].
  intros H. contradiction.
Qed.

(** C5 (amended): each expansion has at most one entry.  At construction,
    when some candidate (a standard entry with an apostrophe, longer than two
    characters, whose lower-cased expansion is in the safe set) is not
    apostrophe-prefixed, the registered contraction is such a candidate and
    is no longer than any other non-prefixed candidate.  [add_contraction]
    registers the lower-cased key whenever it contains an apostrophe, has
    more than one character and is strictly shorter than the current entry
    (or there is none), with no prefix or safe-set check;
    [remove_contraction] deletes the entry if it is the removed key and
    elects no other. *)
Theorem C5_reverse_table_rules :
  (forall (std inf sl : dict) (use_informal use_slang : bool) (e : string),
     (exists kv, In kv (load_dict std) /\ rev_candidate e kv = true /\
                 starts_with "'" (fst kv) = false) ->
     exists c,
       dict_get e (Engine.reverse_dict (Engine.init std inf sl use_informal use_slang)) = Some c /\
       starts_with "'" c = false /\
       (exists kv, In kv (load_dict std) /\ rev_candidate e kv = true /\ fst kv = c) /\
       (forall kv, In kv (load_dict std) -> rev_candidate e kv = true ->
          starts_with "'" (fst kv) = false -> String.length c <= String.length (fst kv))) /\
  (forall (st : Engine.state) (c e e' : string),
     dict_get e' (Engine.reverse_dict (Engine.add_contraction st c e)) =
     if String.eqb e' (str_lower e) && str_has "'" (str_lower c)
        && Nat.ltb 1 (String.length (str_lower c))
        && match dict_get (str_lower e) (Engine.reverse_dict st) with
           | None => true
           | Some ex => Nat.ltb (String.length (str_lower c)) (String.length ex)
           end
     then Some (str_lower c) else dict_get e' (Engine.reverse_dict st)) /\
  (forall (st : Engine.state) (c e' : string),
     NoDup (dict_keys (Engine.reverse_dict st)) ->
     dict_get e' (Engine.reverse_dict (Engine.remove_contraction st c)) =
     match dict_get (str_lower c) (Engine.combined_dict st) with
     | Some x =>
         if negb (String.eqb x "") && String.eqb e' (str_lower x)
            && match dict_get (str_lower x) (Engine.reverse_dict st) with
               | Some v => String.eqb v (str_lower c)
               | None => false
               end
         then None else dict_get e' (Engine.reverse_dict st)
     | None => dict_get e' (Engine.reverse_dict st)
     end).
Proof.
  split; [|split].
  - intros std inf sl ui us e [kv0 [Hin0 [Hc0 Hp0]]].
    rewrite init_reverse.
    pose proof (rev_inv_fold (load_dict std) [] [] rev_inv_nil e) as Hinv. simpl in Hinv.
    assert (Hsafe : in_set e SAFE_CONTRACTIONS = true).
    { destruct kv0 as [a b]. apply rev_candidate_expansion in Hc0 as [-> H].
      apply andb_true_iff in H as [H _]. apply andb_true_iff in H as [H _]. exact H. }
    assert (Hget : dict_get e (build_reverse_dict (load_dict std) ui) =
                   dict_get e (fold_left reverse_step (load_dict std) [])).
    { unfold build_reverse_dict. destruct ui; [|reflexivity].
      apply dict_get_update_absent.
      destruct (dict_get e SAFE_INFORMAL) eqn:G; [|reflexivity].
      exfalso. assert (Hn : dict_get e SAFE_INFORMAL <> None) by congruence.
      apply safe_informal_not_safe in Hn. congruence. }
    rewrite Hget.
    destruct (dict_get e (fold_left reverse_step (load_dict std) [])) as [c|].
    + destruct Hinv as [Hex Hmin]. exists c.
      split; [reflexivity|].
      split; [exact (proj1 (Hmin kv0 Hin0 Hc0 Hp0))|].
      split; [exact Hex|].
      intros kv Hkv Hc Hp. exact (proj2 (Hmin kv Hkv Hc Hp)).
    + rewrite (Hinv kv0 Hin0) in Hc0. discriminate.
  - intros st c e e'. unfold Engine.add_contraction. cbn [Engine.reverse_dict].
    assert (Hset : forall rd, dict_get e' (dict_set (str_lower e) (str_lower c) rd) =
                     if String.eqb e' (str_lower e) then Some (str_lower c) else dict_get e' rd).
    { intros rd. destruct (String.eqb e' (str_lower e)) eqn:E.
      - apply String.eqb_eq in E. subst e'. apply dict_get_set_eq.
      - apply dict_get_set_neq. apply String.eqb_neq. exact E. }
    destruct (str_has "'" (str_lower c)); destruct (Nat.ltb 1 (String.length (str_lower c)));
      rewrite ?andb_true_r, ?andb_false_r; cbn [andb];
      try (destruct (String.eqb e' (str_lower e)); reflexivity).
    destruct (dict_get (str_lower e) (Engine.reverse_dict st)) as [ex|];
      [destruct (Nat.ltb (String.length (str_lower c)) (String.length ex))|];
      rewrite ?andb_true_r, ?andb_false_r;
      try (destruct (String.eqb e' (str_lower e)); reflexivity); apply Hset.
  - intros st c e' Hnd. unfold Engine.remove_contraction. simpl.
    destruct (dict_get (str_lower c) (Engine.combined_dict st)) as [x|]; [|reflexivity].
    destruct (String.eqb x "") eqn:Ex; simpl; [reflexivity|].
    destruct (dict_get (str_lower x) (Engine.reverse_dict st)) as [v|] eqn:G;
      [|rewrite andb_false_r; reflexivity].
    destruct (String.eqb v (str_lower c)) eqn:Ev;
      [|rewrite andb_false_r; reflexivity].
    rewrite andb_true_r.
    destruct (String.eqb e' (str_lower x)) eqn:E.
    + apply String.eqb_eq in E. subst e'. apply dict_get_pop_eq. exact Hnd.
    + apply dict_get_pop_neq. apply String.eqb_neq. exact E.
Qed.

Lemma C5_reverse_table_rules_witness :
  dict_get "it is" (Engine.reverse_dict
    (Engine.init [("'tis", "it is"); ("it's", "it is")] [] [] true true)) = Some "it's".
Proof.
  destruct (proj1 C5_reverse_table_rules [("'tis", "it is"); ("it's", "it is")] [] [] true true
              "it is") as [c [Hc [Hp [Hex Hmin]]]].
  - exists ("it's", "it is"). split; [simpl; auto | split; reflexivity].
  - rewrite Hc. destruct Hex as [kv [Hin [Hcand Hfst]]].
    simpl in Hin. destruct Hin as [<-|[<-|[]]]; simpl in Hfst; subst c;
      [discriminate | reflexivity].
Defined.

(** [fix("") == ""] for every table: no key is eligible in the empty text. *)
Lemma fix_empty_text (d : dict) : fix_text d "" = Some "".
Proof.
  unfold fix_text, fix_with, re_sub, finditer. simpl.
  destruct (match_at _ "" 0) as [k|] eqn:H; [|reflexivity]. exfalso.
  apply match_at_eligible in H as [_ Hok].
  destruct (has_apos k) eqn:Ha.
  - apply apos_ok_occurs in Hok. unfold occurs_ci in Hok. simpl in Hok.
    destruct k; [discriminate | discriminate].
  - unfold word_ok, boundary in Hok. simpl in Hok. discriminate.
Qed.

(** ** Several instances sharing the class-wide caches *)

Section Upd.

Context {A : Type}.

Lemma upd_length (n : nat) (x : A) (l : list A) : List.length (Shared.upd n x l) = List.length l.
Proof. revert n. induction l as [|y r IH]; intros [|n]; simpl; auto. Qed.

Lemma nth_upd_neq (n m : nat) (x : A) (l : list A) :
  m <> n -> nth_error (Shared.upd n x l) m = nth_error l m.
Proof.
  revert n m. induction l as [|y r IH]; intros [|n] [|m] H; simpl; auto; try lia.
Qed.

Lemma upd_same (n : nat) (x : A) (l : list A) :
  nth_error l n = Some x -> Shared.upd n x l = l.
Proof.
  revert n. induction l as [|y r IH]; intros [|n] H; simpl in *; try discriminate.
  - injection H as ->. reflexivity.
  - rewrite IH by exact H. reflexivity.
Qed.

Lemma map_upd {B : Type} (f : A -> B) (n : nat) (x : A) (l : list A) :
  map f (Shared.upd n x l) = Shared.upd n (f x) (map f l).
Proof. revert n. induction l as [|y r IH]; intros [|n]; simpl; auto. rewrite IH. reflexivity. Qed.

Lemma Forall_upd (P : A -> Prop) (n : nat) (x : A) (l : list A) :
  Forall P l -> P x -> Forall P (Shared.upd n x l).
Proof.
  revert n. induction l as [|y r IH]; intros [|n] Hl Hx; simpl; auto.
  - inversion Hl; constructor; auto.
  - inversion Hl; constructor; auto.
Qed.

End Upd.

Lemma key_eqb_eq (a b : Shared.key) : Shared.key_eqb a b = true <-> a = b.
Proof.
  destruct a as [i s], b as [j u]. unfold Shared.key_eqb. simpl.
  rewrite andb_true_iff, Nat.eqb_eq, String.eqb_eq. split.
  - intros [-> ->]. reflexivity.
  - intros H. injection H as -> ->. auto.
Qed.

Lemma shared_get_in (k : Shared.key) (c : Shared.cache) (v : string) :
  Shared.get k c = Some v -> In (k, v) c.
Proof.
  induction c as [|[k' v'] r IH]; simpl; [discriminate|].
  destruct (Shared.key_eqb k k') eqn:E.
  - intros H. injection H as <-. apply key_eqb_eq in E. subst. auto.
  - intros H. right. auto.
Qed.

Lemma shared_get_none (k : Shared.key) (c : Shared.cache) :
  Shared.get k c = None -> ~ In k (map fst c).
Proof.
  induction c as [|[k' v'] r IH]; simpl; [auto|].
  destruct (Shared.key_eqb k k') eqn:E; [discriminate|].
  intros H [Heq|Hin]; [|exact (IH H Hin)].
  subst. assert (Shared.key_eqb k k = true) by (apply key_eqb_eq; reflexivity). congruence.
Qed.

Lemma in_pop (k : Shared.key) (c : Shared.cache) (x : Shared.key * string) :
  In x (Shared.pop k c) -> In x c.
Proof.
  induction c as [|[k' v'] r IH]; simpl; [auto|].
  destruct (Shared.key_eqb k k'); simpl; intuition.
Qed.

Lemma in_firstn_l {A : Type} (n : nat) (l : list A) (x : A) : In x (firstn n l) -> In x l.
Proof.
  revert l. induction n as [|n IH]; intros [|y l]; simpl; auto; try contradiction.
  intros [H|H]; auto.
Qed.

Lemma nodup_firstn {A : Type} (n : nat) (l : list A) : NoDup l -> NoDup (firstn n l).
Proof.
  revert l. induction n as [|n IH]; intros [|y l] H; simpl; try (constructor; fail).
  inversion H as [|? ? Hy Hl]; subst. constructor.
  - intros Hin. apply Hy. exact (in_firstn_l _ _ _ Hin).
  - apply IH. exact Hl.
Qed.

Lemma pop_length (k : Shared.key) (c : Shared.cache) (v : string) :
  Shared.get k c = Some v -> S (List.length (Shared.pop k c)) = List.length c.
Proof.
  induction c as [|[k' v'] r IH]; simpl; [discriminate|].
  destruct (Shared.key_eqb k k'); [reflexivity|]. simpl. intros H. rewrite IH by exact H. reflexivity.
Qed.

Lemma pop_keys (k : Shared.key) (c : Shared.cache) :
  NoDup (map fst c) -> NoDup (map fst (Shared.pop k c)) /\ ~ In k (map fst (Shared.pop k c)).
Proof.
  induction c as [|[k' v'] r IH]; simpl; intros H; [split; [constructor | auto]|].
  inversion H as [|? ? Hk Hr]; subst.
  destruct (Shared.key_eqb k k') eqn:E.
  - apply key_eqb_eq in E. subst k'. split; [exact Hr | exact Hk].
  - destruct (IH Hr) as [H1 H2]. simpl. split.
    + constructor; [|exact H1]. intros Hin. apply Hk.
      apply in_map_iff in Hin as [[a b] [Ha Hin]]. simpl in Ha. subst a.
      apply in_pop in Hin. apply (in_map fst) in Hin. exact Hin.
    + intros [Heq|Hin]; [|exact (H2 Hin)].
      subst k'. assert (Shared.key_eqb k k = true) by (apply key_eqb_eq; reflexivity). congruence.
Qed.

Lemma of_engine_ok (st : Engine.state) :
  Engine.consistent st -> Engine.consistent (Shared.to_engine (Shared.of_engine st)).
Proof.
  intros (Hp & Hr & _ & _). unfold Shared.to_engine, Shared.of_engine, Engine.consistent. simpl.
  repeat split; auto; discriminate.
Qed.

Lemma init_consistent (dt : data) (ui us : bool) : Engine.consistent (new_fixer dt ui us).
Proof. unfold new_fixer, Engine.init. apply fresh_state_consistent. Qed.

Lemma nth_tables (ins : list Shared.inst) (id : nat) :
  nth_error (map inst_tables ins) id = option_map inst_tables (nth_error ins id).
Proof. apply nth_error_map. Qed.

Lemma good_put (P : Shared.key * string -> Prop) (k : Shared.key) (v : string) (c : Shared.cache) :
  P (k, v) -> Forall P c -> Forall P (Shared.put k v c).
Proof.
  intros Hk Hc. unfold Shared.put. rewrite Forall_forall in *. intros x Hx.
  apply in_firstn_l in Hx as [<-|Hx]; auto.
Qed.

Lemma good_touch (P : Shared.key * string -> Prop) (k : Shared.key) (v : string) (c : Shared.cache) :
  P (k, v) -> Forall P c -> Forall P (Shared.touch k v c).
Proof.
  intros Hk Hc. unfold Shared.touch. constructor; [exact Hk|].
  rewrite Forall_forall in *. intros x Hx. apply Hc. eapply in_pop. exact Hx.
Qed.

Lemma nth_some_lt {A : Type} (l : list A) (n : nat) (x : A) : nth_error l n = Some x -> n < List.length l.
Proof. intros H. apply nth_error_Some. congruence. Qed.

Lemma fix_step_ok (tabs : list (dict * dict)) (w : Shared.world) (id : nat) (t : string) :
  winv tabs w ->
  fst (Shared.fix_ w id t) = fresh_fix tabs id t /\ winv tabs (snd (Shared.fix_ w id t)).
Proof.
  intros (Htab & Hpat & Hf & Hc). unfold Shared.fix_, fresh_fix.
  destruct (nth_error (Shared.insts w) id) as [i|] eqn:Ei.
  2:{ assert (Ht : nth_error tabs id = None) by (rewrite <- Htab, nth_tables, Ei; reflexivity).
      rewrite Ht. split; [reflexivity|]. repeat split; assumption. }
  assert (Ht : nth_error tabs id = Some (inst_tables i)) by (rewrite <- Htab, nth_tables, Ei; reflexivity).
  destruct (Shared.get (id, t) (Shared.fix_cache w)) as [r|] eqn:Eg.
  - apply shared_get_in in Eg as Hin. rewrite Forall_forall in Hf.
    pose proof (Hf _ Hin) as [Hgood _]. unfold fresh_fix in Hgood. simpl in Hgood.
    rewrite Ht in Hgood. rewrite Ht. unfold inst_tables in *. simpl.
    split; [exact (eq_sym Hgood)|]. repeat split; try assumption.
    apply good_touch; [apply Hf; exact Hin | rewrite Forall_forall; exact Hf].
  - assert (Hci : Engine.consistent (Shared.to_engine i))
      by (rewrite Forall_forall in Hpat; apply Hpat; eapply nth_error_In; exact Ei).
    destruct (get_pattern_correct _ Hci) as (Hp & Hc1 & Hcd & Hrd).
    destruct (Engine.get_pattern (Shared.to_engine i)) as [p st1]. simpl in *. subst p.
    rewrite Hcd. rewrite Ht. unfold inst_tables. simpl.
    assert (Hins : map inst_tables (Shared.upd id (Shared.of_engine st1) (Shared.insts w)) = tabs).
    { rewrite map_upd. replace (inst_tables (Shared.of_engine st1)) with (inst_tables i).
      - rewrite Htab. apply upd_same. exact Ht.
      - unfold inst_tables, Shared.of_engine. simpl. rewrite Hcd, Hrd. reflexivity. }
    assert (Hpat' : Forall (fun i => Engine.consistent (Shared.to_engine i))
                      (Shared.upd id (Shared.of_engine st1) (Shared.insts w)))
      by (apply Forall_upd; [exact Hpat | apply of_engine_ok; exact Hc1]).
    change (fix_with (compile_pattern (dict_keys (Shared.i_combined i))) (Shared.i_combined i) t)
      with (fix_text (Shared.i_combined i) t).
    destruct (fix_text (Shared.i_combined i) t) as [r|] eqn:Efix; simpl.
    + split; [reflexivity|]. repeat split; try assumption.
      apply good_put; [|exact Hf]. unfold good_fix, fresh_fix. simpl. rewrite Ht.
      split; [exact Efix | exact (nth_some_lt _ _ _ Ht)].
    + split; [reflexivity|]. repeat split; assumption.
Qed.

Lemma contract_step_ok (tabs : list (dict * dict)) (w : Shared.world) (id : nat) (t : string) :
  winv tabs w ->
  fst (Shared.contract w id t) = fresh_contract tabs id t /\
  winv tabs (snd (Shared.contract w id t)).
Proof.
  intros (Htab & Hpat & Hf & Hc). unfold Shared.contract, fresh_contract.
  destruct (nth_error (Shared.insts w) id) as [i|] eqn:Ei.
  2:{ assert (Ht : nth_error tabs id = None) by (rewrite <- Htab, nth_tables, Ei; reflexivity).
      rewrite Ht. split; [reflexivity|]. repeat split; assumption. }
  assert (Ht : nth_error tabs id = Some (inst_tables i)) by (rewrite <- Htab, nth_tables, Ei; reflexivity).
  destruct (Shared.get (id, t) (Shared.contract_cache w)) as [r|] eqn:Eg.
  - apply shared_get_in in Eg as Hin. rewrite Forall_forall in Hc.
    pose proof (Hc _ Hin) as [Hgood _]. unfold fresh_contract in Hgood. simpl in Hgood.
    rewrite Ht in Hgood. rewrite Ht. unfold inst_tables in *. simpl.
    split; [exact (eq_sym Hgood)|]. repeat split; try assumption.
    apply good_touch; [apply Hc; exact Hin | rewrite Forall_forall; exact Hc].
  - assert (Hci : Engine.consistent (Shared.to_engine i))
      by (rewrite Forall_forall in Hpat; apply Hpat; eapply nth_error_In; exact Ei).
    destruct (get_reverse_pattern_correct _ Hci) as (Hp & Hc1 & Hcd & Hrd).
    destruct (Engine.get_reverse_pattern (Shared.to_engine i)) as [p st1]. simpl in *. subst p.
    rewrite Hrd. rewrite Ht. unfold inst_tables. simpl.
    assert (Hins : map inst_tables (Shared.upd id (Shared.of_engine st1) (Shared.insts w)) = tabs).
    { rewrite map_upd. replace (inst_tables (Shared.of_engine st1)) with (inst_tables i).
      - rewrite Htab. apply upd_same. exact Ht.
      - unfold inst_tables, Shared.of_engine. simpl. rewrite Hcd, Hrd. reflexivity. }
    assert (Hpat' : Forall (fun i => Engine.consistent (Shared.to_engine i))
                      (Shared.upd id (Shared.of_engine st1) (Shared.insts w)))
      by (apply Forall_upd; [exact Hpat | apply of_engine_ok; exact Hc1]).
    change (contract_with (compile_reverse_pattern (dict_keys (Shared.i_reverse i)))
              (Shared.i_reverse i) t) with (reverse_fix (Shared.i_reverse i) t).
    destruct (reverse_fix (Shared.i_reverse i) t) as [r|] eqn:Efix; simpl.
    + split; [reflexivity|]. repeat split; try assumption.
      apply good_put; [|exact Hc]. unfold good_contract, fresh_contract. simpl. rewrite Ht.
      split; [exact Efix | exact (nth_some_lt _ _ _ Ht)].
    + split; [reflexivity|]. repeat split; assumption.
Qed.

Lemma fix_batch_ok (tabs : list (dict * dict)) (id : nat) (ts : list string) (w : Shared.world) :
  winv tabs w ->
  fst (Shared.fix_batch w id ts) = all_some (map (fresh_fix tabs id) ts) /\
  winv tabs (snd (Shared.fix_batch w id ts)).
Proof.
  revert w. induction ts as [|t r IH]; intros w Hw; simpl; [auto|].
  destruct (fix_step_ok tabs w id t Hw) as [H1 H2].
  destruct (Shared.fix_ w id t) as [[x|] w1]; simpl in *; rewrite <- H1; [|auto].
  destruct (IH w1 H2) as [H3 H4].
  destruct (Shared.fix_batch w1 id r) as [[xs|] w2]; simpl in *; rewrite <- H3; auto.
Qed.

Lemma contract_batch_ok (tabs : list (dict * dict)) (id : nat) (ts : list string) (w : Shared.world) :
  winv tabs w ->
  fst (Shared.contract_batch w id ts) = all_some (map (fresh_contract tabs id) ts) /\
  winv tabs (snd (Shared.contract_batch w id ts)).
Proof.
  revert w. induction ts as [|t r IH]; intros w Hw; simpl; [auto|].
  destruct (contract_step_ok tabs w id t Hw) as [H1 H2].
  destruct (Shared.contract w id t) as [[x|] w1]; simpl in *; rewrite <- H1; [|auto].
  destruct (IH w1 H2) as [H3 H4].
  destruct (Shared.contract_batch w1 id r) as [[xs|] w2]; simpl in *; rewrite <- H3; auto.
Qed.

Lemma good_fix_app (tabs more : list (dict * dict)) (e : Shared.key * string) :
  good_fix tabs e -> good_fix (tabs ++ more) e.
Proof.
  unfold good_fix, fresh_fix. intros [H1 H2]. rewrite nth_error_app1 by exact H2.
  rewrite length_app. split; [exact H1 | lia].
Qed.

Lemma good_contract_app (tabs more : list (dict * dict)) (e : Shared.key * string) :
  good_contract tabs e -> good_contract (tabs ++ more) e.
Proof.
  unfold good_contract, fresh_contract. intros [H1 H2]. rewrite nth_error_app1 by exact H2.
  rewrite length_app. split; [exact H1 | lia].
Qed.

Lemma create_ok (tabs : list (dict * dict)) (w : Shared.world) (st : Engine.state) :
  winv tabs w -> Engine.consistent st ->
  fst (Shared.create w st) = List.length tabs /\
  winv (tabs ++ [engine_tables st]) (snd (Shared.create w st)).
Proof.
  intros (Htab & Hpat & Hf & Hc) Hst. unfold Shared.create. simpl.
  split; [rewrite <- Htab, length_map; reflexivity|].
  unfold winv; simpl.
  split; [rewrite map_app, Htab; reflexivity|].
  split; [apply Forall_app; split; [exact Hpat | constructor; [apply of_engine_ok; exact Hst | constructor]]|].
  split; rewrite Forall_forall in *; intros x Hx.
  - apply good_fix_app. apply Hf. exact Hx.
  - apply good_contract_app. apply Hc. exact Hx.
Qed.

Lemma mutate_ok (tabs : list (dict * dict)) (w : Shared.world) (id : nat)
    (f : Engine.state -> Engine.state) :
  winv tabs w ->
  (forall st, f st = Engine.mk_state (Engine.combined_dict (f st)) (Engine.reverse_dict (f st))
                                     None None [] []) ->
  (forall st st', Engine.combined_dict st = Engine.combined_dict st' ->
     Engine.reverse_dict st = Engine.reverse_dict st' -> f st = f st') ->
  winv (match nth_error tabs id with
        | Some (cd, rd) => Shared.upd id (engine_tables (f (Engine.mk_state cd rd None None [] []))) tabs
        | None => tabs
        end)
       (match nth_error (Shared.insts w) id with
        | None => w
        | Some i => Shared.mk_world (Shared.upd id (Shared.of_engine (f (Shared.to_engine i)))
                                               (Shared.insts w)) [] []
        end).
Proof.
  intros Hw Hshape Hdep. pose proof Hw as (Htab & Hpat & Hf & Hc).
  destruct (nth_error (Shared.insts w) id) as [i|] eqn:Ei.
  2:{ rewrite <- Htab, nth_tables, Ei. simpl. rewrite Htab. exact Hw. }
  rewrite <- Htab, nth_tables, Ei. simpl.
  assert (Hsame : f (Shared.to_engine i) =
                  f (Engine.mk_state (Shared.i_combined i) (Shared.i_reverse i) None None [] []))
    by (apply Hdep; reflexivity).
  split; [|split; [|split; constructor]].
  - simpl. rewrite map_upd. rewrite Hsame. reflexivity.
  - simpl. apply Forall_upd; [exact Hpat|]. apply of_engine_ok.
    rewrite (Hshape (Shared.to_engine i)). apply fresh_state_consistent.
Qed.

Lemma shared_step_ok (dt : data) (tabs : list (dict * dict)) (w : Shared.world) (c : Shared.call) :
  winv tabs w ->
  fst (Shared.step dt w c) = fresh_call tabs c /\
  winv (tables_step dt tabs c) (snd (Shared.step dt w c)).
Proof.
  intros Hw. destruct c as [ui us|id t|id ts|id t|id ts|id t n|id c e|id c]; simpl.
  - destruct (create_ok tabs w (new_fixer dt ui us) Hw (init_consistent dt ui us)) as [H1 H2].
    unfold Shared.create in *. simpl in *. split; [congruence | exact H2].
  - destruct (fix_step_ok tabs w id t Hw) as [H1 H2].
    destruct (Shared.fix_ w id t). simpl in *. split; [congruence | exact H2].
  - destruct (fix_batch_ok tabs id ts w Hw) as [H1 H2].
    destruct (Shared.fix_batch w id ts). simpl in *. split; [congruence | exact H2].
  - destruct (contract_step_ok tabs w id t Hw) as [H1 H2].
    destruct (Shared.contract w id t). simpl in *. split; [congruence | exact H2].
  - destruct (contract_batch_ok tabs id ts w Hw) as [H1 H2].
    destruct (Shared.contract_batch w id ts). simpl in *. split; [congruence | exact H2].
  - pose proof Hw as (Htab & Hpat & Hf & Hc). unfold Shared.preview.
    destruct (nth_error (Shared.insts w) id) as [i|] eqn:Ei.
    2:{ rewrite <- Htab, nth_tables, Ei. simpl. rewrite Htab. auto. }
    assert (Ht : nth_error tabs id = Some (inst_tables i))
      by (rewrite <- Htab, nth_tables, Ei; reflexivity).
    assert (Hci : Engine.consistent (Shared.to_engine i))
      by (rewrite Forall_forall in Hpat; apply Hpat; eapply nth_error_In; exact Ei).
    destruct (preview_correct _ Hci t n) as (H1 & H2 & H3 & H4).
    destruct (Engine.preview (Shared.to_engine i) t n) as [ms st1]. simpl in *.
    rewrite Ht. unfold inst_tables. simpl. rewrite H1. split; [reflexivity|].
    split; [|split; [|split]]; simpl; try assumption.
    + rewrite map_upd. replace (inst_tables (Shared.of_engine st1)) with (inst_tables i).
      * rewrite Htab. apply upd_same. exact Ht.
      * unfold inst_tables, Shared.of_engine. simpl. rewrite H3, H4. reflexivity.
    + apply Forall_upd; [exact Hpat | apply of_engine_ok; exact H2].
  - split; [reflexivity|]. unfold Shared.add_contraction.
    apply (mutate_ok tabs w id (fun st => Engine.add_contraction st c e) Hw).
    + intros st. reflexivity.
    + intros [cd rd p q f g] [cd' rd' p' q' f' g']. simpl. intros -> ->. reflexivity.
  - split; [reflexivity|]. unfold Shared.remove_contraction.
    apply (mutate_ok tabs w id (fun st => Engine.remove_contraction st c) Hw).
    + intros st. reflexivity.
    + intros [cd rd p q f g] [cd' rd' p' q' f' g']. simpl. intros -> ->. reflexivity.
Qed.

Lemma shared_run_ok (dt : data) (cs : list Shared.call) (tabs : list (dict * dict)) (w : Shared.world) :
  winv tabs w -> Shared.run dt w cs = fresh_run dt tabs cs.
Proof.
  revert tabs w. induction cs as [|c cs IH]; intros tabs w Hw; [reflexivity|].
  simpl. destruct (shared_step_ok dt tabs w c Hw) as [H1 H2].
  destruct (Shared.step dt w c) as [x w']. simpl in *. rewrite H1. f_equal. apply IH. exact H2.
Qed.

Lemma winv_empty : winv [] Shared.empty.
Proof. repeat split; constructor. Qed.

(** [ContractionFixer.fix], [fix_batch], [contract], [contract_batch] and
    [preview], on any number of instances, with [add_contraction] and
    [remove_contraction] interleaved: the memo caches are shared by the whole
    class, yet every call returns what its own instance's current tables give
    afresh, and a batch raises exactly when one of its texts does. *)
Theorem shared_cache_transparent (dt : data) (cs : list Shared.call) :
  Shared.run dt Shared.empty cs = fresh_run dt [] cs.
Proof. apply shared_run_ok. exact winv_empty. Qed.

Section ApiOp.

Variables (X R : Type) (op : Shared.world -> nat -> X -> R * Shared.world)
          (F : list (dict * dict) -> nat -> X -> R) (G : dict * dict -> X -> R).
Hypothesis Hop : forall tabs w id x,
  winv tabs w -> fst (op w id x) = F tabs id x /\ winv tabs (snd (op w id x)).
Hypothesis HF : forall tabs id x T, nth_error tabs id = Some T -> F tabs id x = G T x.

(** One package-level call: the default instance when both flags are set,
    otherwise a new instance. *)
Lemma api_op_ok (dt : data) (tabs : list (dict * dict)) (w : Shared.world) (ui us : bool) (x : X) :
  winv tabs w -> nth_error tabs 0 = Some (engine_tables (new_fixer dt true true)) ->
  let res := if ui && us then op w 0 x
             else let (id, w1) := Shared.create w (new_fixer dt ui us) in op w1 id x in
  fst res = G (engine_tables (new_fixer dt ui us)) x /\
  exists tabs', winv tabs' (snd res) /\
                nth_error tabs' 0 = Some (engine_tables (new_fixer dt true true)).
Proof.
  intros Hw H0. cbv zeta. destruct (ui && us) eqn:E.
  - apply andb_true_iff in E as [-> ->].
    destruct (Hop tabs w 0 x Hw) as [H1 H2]. split.
    + rewrite H1. apply HF. exact H0.
    + exists tabs. auto.
  - destruct (create_ok tabs w (new_fixer dt ui us) Hw (init_consistent dt ui us)) as [Hid Hw1].
    destruct (Shared.create w (new_fixer dt ui us)) as [id w1]. cbn [fst snd] in *. subst id.
    destruct (Hop _ w1 (List.length tabs) x Hw1) as [H1 H2]. split.
    + rewrite H1. apply HF. rewrite nth_error_app2 by lia. rewrite Nat.sub_diag. reflexivity.
    + exists (app tabs [engine_tables (new_fixer dt ui us)]). split; [exact H2|].
      rewrite nth_error_app1 by exact (nth_some_lt _ _ _ H0). exact H0.
Qed.

End ApiOp.

Lemma fresh_fix_at (tabs : list (dict * dict)) (id : nat) (T : dict * dict) (t : string) :
  nth_error tabs id = Some T -> fresh_fix tabs id t = fix_text (fst T) t.
Proof. unfold fresh_fix. intros ->. destruct T. reflexivity. Qed.

Lemma fresh_contract_at (tabs : list (dict * dict)) (id : nat) (T : dict * dict) (t : string) :
  nth_error tabs id = Some T -> fresh_contract tabs id t = reverse_fix (snd T) t.
Proof. unfold fresh_contract. intros ->. destruct T. reflexivity. Qed.

Lemma api_step_ok (dt : data) (tabs : list (dict * dict)) (w : Shared.world) (c : Api.call) :
  winv tabs w -> nth_error tabs 0 = Some (engine_tables (new_fixer dt true true)) ->
  fst (Api.step dt w c) = api_fresh dt c /\
  exists tabs', winv tabs' (snd (Api.step dt w c)) /\
                nth_error tabs' 0 = Some (engine_tables (new_fixer dt true true)).
Proof.
  intros Hw H0. destruct c as [t ui us|ts ui us|t ui us|ts ui us]; unfold Api.step.
  - pose proof (api_op_ok string (option string) Shared.fix_ fresh_fix (fun T t => fix_text (fst T) t)
                  (fun tabs w id x Hw => fix_step_ok tabs w id x Hw)
                  (fun tabs id x T H => fresh_fix_at tabs id T x H) dt tabs w ui us t Hw H0) as H.
    unfold Api.fix_. cbv zeta in H. destruct (if ui && us then _ else _) as [r w'].
    cbn [fst snd] in *. destruct H as [H1 H2]. rewrite H1. split; [reflexivity | exact H2].
  - pose proof (api_op_ok (list string) (option (list string)) Shared.fix_batch
                  (fun tabs id ts => all_some (map (fresh_fix tabs id) ts))
                  (fun T ts => all_some (map (fix_text (fst T)) ts))
                  (fun tabs w id x Hw => fix_batch_ok tabs id x w Hw)) as H.
    specialize (H (fun tabs id x T Ht => f_equal all_some
                   (map_ext _ _ (fun t => fresh_fix_at tabs id T t Ht) x)) dt tabs w ui us ts Hw H0).
    unfold Api.fix_batch. cbv zeta in H. destruct (if ui && us then _ else _) as [r w'].
    cbn [fst snd] in *. destruct H as [H1 H2]. rewrite H1. split; [reflexivity | exact H2].
  - pose proof (api_op_ok string (option string) Shared.contract fresh_contract
                  (fun T t => reverse_fix (snd T) t)
                  (fun tabs w id x Hw => contract_step_ok tabs w id x Hw)
                  (fun tabs id x T H => fresh_contract_at tabs id T x H) dt tabs w ui us t Hw H0) as H.
    unfold Api.contract. cbv zeta in H. destruct (if ui && us then _ else _) as [r w'].
    cbn [fst snd] in *. destruct H as [H1 H2]. rewrite H1. split; [reflexivity | exact H2].
  - pose proof (api_op_ok (list string) (option (list string)) Shared.contract_batch
                  (fun tabs id ts => all_some (map (fresh_contract tabs id) ts))
                  (fun T ts => all_some (map (reverse_fix (snd T)) ts))
                  (fun tabs w id x Hw => contract_batch_ok tabs id x w Hw)) as H.
    specialize (H (fun tabs id x T Ht => f_equal all_some
                   (map_ext _ _ (fun t => fresh_contract_at tabs id T t Ht) x)) dt tabs w ui us ts Hw H0).
    unfold Api.contract_batch. cbv zeta in H. destruct (if ui && us then _ else _) as [r w'].
    cbn [fst snd] in *. destruct H as [H1 H2]. rewrite H1. split; [reflexivity | exact H2].
Qed.

(** The package functions [fix], [fix_batch], [contract] and
    [contract_batch] of [__init__.py], after importing the package and over
    any sequence of calls, return what a new [ContractionFixer] with the
    same flags returns: with both flags set the cached default instance
    answers, otherwise a new instance, and the caches they share never leak
    one instance's answers into another's. *)
Theorem api_matches_fresh_fixer (dt : data) (cs : list Api.call) :
  Api.run dt (Api.import_package dt) cs = map (api_fresh dt) cs.
Proof.
  assert (Hgen : forall cs tabs w,
            winv tabs w -> nth_error tabs 0 = Some (engine_tables (new_fixer dt true true)) ->
            Api.run dt w cs = map (api_fresh dt) cs).
  { clear cs. induction cs as [|c cs IH]; intros tabs w Hw H0; [reflexivity|].
    cbn [Api.run map]. destruct (api_step_ok dt tabs w c Hw H0) as [H1 [tabs' [H2 H3]]].
    destruct (Api.step dt w c) as [x w']. cbn [fst snd] in *. rewrite H1.
    f_equal. exact (IH tabs' w' H2 H3). }
  apply (Hgen cs [engine_tables (new_fixer dt true true)]); [|reflexivity].
  unfold Api.import_package.
  destruct (create_ok [] Shared.empty (new_fixer dt true true) winv_empty (init_consistent dt true true))
    as [_ H]. exact H.
Qed.

Lemma cache_ok_touch (k : Shared.key) (v u : string) (c : Shared.cache) :
  Shared.get k c = Some u -> cache_ok c -> cache_ok (Shared.touch k v c).
Proof.
  intros Hg [Hl Hn]. unfold Shared.touch, cache_ok. simpl.
  destruct (pop_keys k c Hn) as [H1 H2]. rewrite (pop_length k c u Hg).
  split; [exact Hl | constructor; assumption].
Qed.

Lemma cache_ok_put (k : Shared.key) (v : string) (c : Shared.cache) :
  Shared.get k c = None -> cache_ok c -> cache_ok (Shared.put k v c).
Proof.
  intros Hg [Hl Hn]. unfold Shared.put, cache_ok. split.
  - apply firstn_le_length.
  - rewrite <- firstn_map. apply nodup_firstn. simpl. constructor; [|exact Hn].
    apply shared_get_none. exact Hg.
Qed.

Lemma cache_ok_nil : cache_ok [].
Proof. split; [simpl; unfold Engine.CACHE_SIZE; lia | constructor]. Qed.

Lemma fix_world_ok (w : Shared.world) (id : nat) (t : string) :
  world_ok w -> world_ok (snd (Shared.fix_ w id t)).
Proof.
  intros [Hf Hc]. unfold Shared.fix_.
  destruct (nth_error (Shared.insts w) id) as [i|]; [|split; assumption].
  destruct (Shared.get (id, t) (Shared.fix_cache w)) as [r|] eqn:Eg.
  - split; [eapply cache_ok_touch; eassumption | exact Hc].
  - destruct (Engine.get_pattern (Shared.to_engine i)) as [p st1].
    destruct (fix_with p (Engine.combined_dict st1) t).
    + split; [apply cache_ok_put; assumption | exact Hc].
    + split; assumption.
Qed.

Lemma contract_world_ok (w : Shared.world) (id : nat) (t : string) :
  world_ok w -> world_ok (snd (Shared.contract w id t)).
Proof.
  intros [Hf Hc]. unfold Shared.contract.
  destruct (nth_error (Shared.insts w) id) as [i|]; [|split; assumption].
  destruct (Shared.get (id, t) (Shared.contract_cache w)) as [r|] eqn:Eg.
  - split; [exact Hf | eapply cache_ok_touch; eassumption].
  - destruct (Engine.get_reverse_pattern (Shared.to_engine i)) as [p st1].
    destruct (contract_with p (Engine.reverse_dict st1) t).
    + split; [exact Hf | apply cache_ok_put; assumption].
    + split; assumption.
Qed.

Lemma fix_batch_world_ok (id : nat) (ts : list string) (w : Shared.world) :
  world_ok w -> world_ok (snd (Shared.fix_batch w id ts)).
Proof.
  revert w. induction ts as [|t r IH]; intros w Hw; simpl; [exact Hw|].
  pose proof (fix_world_ok w id t Hw) as H1.
  destruct (Shared.fix_ w id t) as [[x|] w1]; simpl in *; [|exact H1].
  pose proof (IH w1 H1) as H2. destruct (Shared.fix_batch w1 id r) as [[xs|] w2]; exact H2.
Qed.

Lemma contract_batch_world_ok (id : nat) (ts : list string) (w : Shared.world) :
  world_ok w -> world_ok (snd (Shared.contract_batch w id ts)).
Proof.
  revert w. induction ts as [|t r IH]; intros w Hw; simpl; [exact Hw|].
  pose proof (contract_world_ok w id t Hw) as H1.
  destruct (Shared.contract w id t) as [[x|] w1]; simpl in *; [|exact H1].
  pose proof (IH w1 H1) as H2. destruct (Shared.contract_batch w1 id r) as [[xs|] w2]; exact H2.
Qed.

Lemma step_world_ok (dt : data) (w : Shared.world) (c : Shared.call) :
  world_ok w -> world_ok (snd (Shared.step dt w c)).
Proof.
  intros Hw. destruct c as [ui us|id t|id ts|id t|id ts|id t n|id c e|id c]; unfold Shared.step.
  - unfold Shared.create. exact Hw.
  - pose proof (fix_world_ok w id t Hw). destruct (Shared.fix_ w id t). assumption.
  - pose proof (fix_batch_world_ok id ts w Hw). destruct (Shared.fix_batch w id ts). assumption.
  - pose proof (contract_world_ok w id t Hw). destruct (Shared.contract w id t). assumption.
  - pose proof (contract_batch_world_ok id ts w Hw).
    destruct (Shared.contract_batch w id ts). assumption.
  - unfold Shared.preview. destruct (nth_error (Shared.insts w) id) as [i|]; [|exact Hw].
    destruct (Engine.preview (Shared.to_engine i) t n). exact Hw.
  - unfold Shared.add_contraction. destruct (nth_error (Shared.insts w) id);
      [split; exact cache_ok_nil | exact Hw].
  - unfold Shared.remove_contraction. destruct (nth_error (Shared.insts w) id);
      [split; exact cache_ok_nil | exact Hw].
Qed.

(** The two [@lru_cache(maxsize=2048)] caches, shared by all instances,
    never hold more than 2048 entries and never hold a [(self, text)] key
    twice, whatever the calls on whatever instances. *)
Theorem lru_caches_bounded (dt : data) (cs : list Shared.call) :
  let w := Shared.final dt Shared.empty cs in
  List.length (Shared.fix_cache w) <= 2048 /\ NoDup (map fst (Shared.fix_cache w)) /\
  List.length (Shared.contract_cache w) <= 2048 /\ NoDup (map fst (Shared.contract_cache w)).
Proof.
  assert (H : forall cs w, world_ok w -> world_ok (Shared.final dt w cs)).
  { clear cs. induction cs as [|c cs IH]; intros w Hw; simpl; [exact Hw|].
    apply IH. apply step_world_ok. exact Hw. }
  destruct (H cs Shared.empty (conj cache_ok_nil cache_ok_nil)) as [[H1 H2] [H3 H4]].
  cbv zeta. unfold Engine.CACHE_SIZE in *. auto.
Qed.

(** ** Spans of [finditer] *)

Lemma prefix_ci_length (k u : string) : prefix_ci k u = true -> String.length k <= String.length u.
Proof.
  revert u. induction k as [|a k IH]; intros [|b u] H; simpl in *; try lia; try discriminate.
  apply andb_true_iff in H as [_ H]. apply IH in H. lia.
Qed.

Lemma length_drop (p : nat) (t : string) : String.length (str_drop p t) = String.length t - p.
Proof.
  revert t. induction p as [|p IH]; intros [|c t]; simpl; try reflexivity.
  apply IH.
Qed.

Lemma substring_drop (s n : nat) (t : string) : substring s n t = substring 0 n (str_drop s t).
Proof.
  revert t. induction s as [|s IH]; intros [|c t]; simpl; try reflexivity.
  - destruct n; reflexivity.
  - apply IH.
Qed.

Lemma prefix_ci_lower (k u : string) :
  prefix_ci k u = true -> str_lower (substring 0 (String.length k) u) = str_lower k.
Proof.
  revert u. induction k as [|a k IH]; intros [|b u] H; simpl in *; try reflexivity; try discriminate.
  apply andb_true_iff in H as [Hab H]. unfold ci_eq in Hab. apply Ascii.eqb_eq in Hab.
  unfold str_lower in *. simpl. rewrite Hab. f_equal. apply IH. exact H.
Qed.

Lemma substring_split (a x y : nat) (t : string) :
  substring a (x + y) t = substring a x t ++ substring (a + x) y t.
Proof.
  revert a x. induction t as [|c t IH]; intros a x.
  - destruct a, x, y; reflexivity.
  - destruct a as [|a].
    + destruct x as [|x]; [reflexivity|]. simpl. rewrite (IH 0 x). reflexivity.
    + simpl. apply IH.
Qed.

Lemma substring_length (a x : nat) (t : string) :
  a + x <= String.length t -> String.length (substring a x t) = x.
Proof.
  revert a x. induction t as [|c t IH]; intros a x H; simpl in H.
  - assert (x = 0) by lia. subst. destruct a; reflexivity.
  - destruct a as [|a].
    + destruct x as [|x]; [reflexivity|]. simpl. rewrite IH by lia. reflexivity.
    + simpl. apply IH. lia.
Qed.

Lemma find_from_span (pat : pattern) (t : string) (fuel p s e : nat) :
  In (s, e) (find_from pat t fuel p) ->
  p <= s /\ s <= String.length t /\
  exists k, match_at pat t s = Some k /\ e = s + String.length k.
Proof.
  revert p. induction fuel as [|f IH]; intros p H; simpl in H; [destruct H|].
  destruct (Nat.ltb (String.length t) p) eqn:Elt; [destruct H|].
  apply Nat.ltb_ge in Elt.
  destruct (match_at pat t p) as [k|] eqn:Em.
  - destruct H as [H|H].
    + injection H as <- <-. split; [lia|]. split; [exact Elt|]. exists k. auto.
    + apply IH in H as (H1 & H2 & H3). split; [|auto].
      destruct (Nat.eqb (String.length k) 0); lia.
  - apply IH in H as (H1 & H2 & H3). split; [lia | auto].
Qed.

Lemma match_at_key (keys : list string) (t : string) (s : nat) (k : string) :
  match_at (compile_pattern keys) t s = Some k -> In k keys /\ occurs_ci k t s = true.
Proof.
  intros H. apply match_at_eligible in H as Hel. split; [exact (proj1 Hel)|].
  eapply eligible_occurs. exact Hel.
Qed.

Lemma match_at_reverse_key (keys : list string) (t : string) (s : nat) (k : string) :
  match_at (compile_reverse_pattern keys) t s = Some k -> In k keys /\ occurs_ci k t s = true.
Proof.
  unfold match_at, compile_reverse_pattern. simpl. intros H.
  apply first_ok_some in H as [Hin Hok]. rewrite in_sort_keys in Hin.
  split; [exact Hin | apply word_ok_occurs; exact Hok].
Qed.

(** What a span lets one read off the text. *)
Lemma occurs_span (k t : string) (s : nat) :
  occurs_ci k t s = true -> s <= String.length t ->
  s + String.length k <= String.length t /\
  str_slice t s (s + String.length k) = substring 0 (String.length k) (str_drop s t) /\
  str_lower (str_slice t s (s + String.length k)) = str_lower k.
Proof.
  intros Ho Hs. unfold occurs_ci in Ho.
  pose proof (prefix_ci_length _ _ Ho) as Hl. rewrite length_drop in Hl.
  assert (Hsl : str_slice t s (s + String.length k) = substring 0 (String.length k) (str_drop s t)).
  { unfold str_slice. replace (s + String.length k - s) with (String.length k) by lia.
    apply substring_drop. }
  split; [lia|]. split; [exact Hsl|]. rewrite Hsl. apply prefix_ci_lower. exact Ho.
Qed.

Lemma occurs_nonempty (a : ascii) (k t : string) (s : nat) :
  occurs_ci (String a k) t s = true ->
  exists c r, str_slice t s (s + String.length (String a k)) = String c r.
Proof.
  intros Ho. unfold str_slice. replace (s + String.length (String a k) - s) with (S (String.length k))
    by (simpl; lia).
  rewrite substring_drop. unfold occurs_ci in Ho.
  destruct (str_drop s t) as [|c r]; [discriminate|]. simpl. eauto.
Qed.

(** ** Fixing never raises without an empty key *)

Lemma recase_some (c : ascii) (r x : string) : exists u, recase (String c r) x = Some u.
Proof.
  unfold recase. destruct (py_isupper (String c r)); [eauto|]. simpl.
  destruct (is_upper_c c); eauto.
Qed.

Lemma replace_match_some (d : dict) (c : ascii) (r : string) :
  exists u, replace_match d (String c r) = Some u.
Proof.
  unfold replace_match.
  destruct ((ends_with "'s" (String c r) || ends_with "'s" (String c r)) &&
            negb (is_contraction_s (String c r))); [eauto|].
  destruct (dict_get (str_lower (String c r)) d); [apply recase_some|].
  destruct (dict_get (replace_char "'" "'" (str_lower (String c r))) d); [apply recase_some | eauto].
Qed.

Lemma contract_match_some (rd : dict) (c : ascii) (r : string) :
  exists u, contract_match rd (String c r) = Some u.
Proof.
  unfold contract_match. destruct (dict_get (str_lower (String c r)) rd); [apply recase_some | eauto].
Qed.

Lemma splice_some (repl : string -> option string) (t : string) (ms : list (nat * nat)) (pos : nat) :
  (forall s e, In (s, e) ms -> exists u, repl (str_slice t s e) = Some u) ->
  exists u, splice repl t pos ms = Some u.
Proof.
  revert pos. induction ms as [|[s e] r IH]; intros pos H; simpl; [eauto|].
  destruct (H s e (or_introl eq_refl)) as [x Hx]. rewrite Hx.
  destruct (IH e (fun s' e' Hin => H s' e' (or_intror Hin))) as [y Hy]. rewrite Hy. eauto.
Qed.

Lemma span_nonempty_slice (pat : pattern) (keys : list string) (t : string) (s e : nat) :
  (forall s k, match_at pat t s = Some k -> In k keys /\ occurs_ci k t s = true) ->
  ~ In "" keys -> In (s, e) (finditer pat t) ->
  exists c r, str_slice t s e = String c r.
Proof.
  intros Hkey Hne Hin. unfold finditer in Hin.
  apply find_from_span in Hin as (_ & _ & k & Hm & ->).
  destruct (Hkey _ _ Hm) as [Hk Ho]. destruct k as [|a k]; [contradiction|].
  apply occurs_nonempty. exact Ho.
Qed.

(** [fix] raises only through an empty key: when the combined table has no
    empty key, every match is non-empty, [matched_text[0]] exists, and
    [fix] returns a text. *)
Theorem fix_total_without_empty_key (d : dict) (t : string) :
  ~ In "" (dict_keys d) -> exists u, fix_text d t = Some u.
Proof.
  intros Hne. unfold fix_text, fix_with, re_sub. apply splice_some. intros s e Hin.
  destruct (span_nonempty_slice _ (dict_keys d) t s e (match_at_key (dict_keys d) t) Hne Hin)
    as (c & r & ->).
  apply replace_match_some.
Qed.

Lemma fix_total_without_empty_key_witness :
  exists u, fix_text sample_standard "I can't do it" = Some u.
Proof. apply fix_total_without_empty_key. vm_compute. intuition discriminate. Defined.

(** [contract] likewise raises only through an empty expansion key in the
    reverse table. *)
Theorem contract_total_without_empty_key (rd : dict) (t : string) :
  ~ In "" (dict_keys rd) -> exists u, reverse_fix rd t = Some u.
Proof.
  intros Hne. unfold reverse_fix, contract_with, re_sub. apply splice_some. intros s e Hin.
  destruct (span_nonempty_slice _ (dict_keys rd) t s e (match_at_reverse_key (dict_keys rd) t) Hne Hin)
    as (c & r & ->).
  apply contract_match_some.
Qed.

Lemma contract_total_without_empty_key_witness :
  exists u, reverse_fix [("it is", "it's")] "it is here" = Some u.
Proof. apply contract_total_without_empty_key. simpl. intuition discriminate. Defined.

(** ** What [preview] reports *)


Lemma slice_three (t : string) (a s e b : nat) :
  a <= s -> s <= e -> e <= b -> b <= String.length t ->
  str_slice t a b = str_slice t a s ++ str_slice t s e ++ str_slice t e b /\
  String.length (str_slice t a s) = s - a.
Proof.
  intros H1 H2 H3 H4. unfold str_slice. split.
  - replace (b - a) with ((s - a) + ((e - s) + (b - e))) by lia.
    rewrite substring_split, (substring_split (a + (s - a))).
    replace (a + (s - a)) with s by lia. replace (s + (e - s)) with e by lia. reflexivity.
  - apply substring_length. lia.
Qed.



Lemma HdRel_map {A B : Type} (R : A -> A -> Prop) (R' : B -> B -> Prop) (f : A -> B) a l :
  (forall x y, R x y -> R' (f x) (f y)) -> HdRel R a l -> HdRel R' (f a) (map f l).
Proof. intros H Hd. destruct Hd; simpl; constructor. apply H. assumption. Qed.

Lemma Sorted_map_rel {A B : Type} (R : A -> A -> Prop) (R' : B -> B -> Prop) (f : A -> B) l :
  (forall x y, R x y -> R' (f x) (f y)) -> Sorted R l -> Sorted R' (map f l).
Proof.
  intros H Hs. induction Hs as [|a l Hs IH Hd]; simpl; constructor; [exact IH|].
  eapply HdRel_map; eauto.
Qed.

Lemma find_from_sorted (pat : pattern) (t : string) (fuel p : nat) :
  Sorted span_before (find_from pat t fuel p).
Proof.
  revert p. induction fuel as [|f IH]; intros p; simpl; [constructor|].
  destruct (Nat.ltb (String.length t) p); [constructor|].
  destruct (match_at pat t p) as [k|]; [|apply IH].
  constructor; [apply IH|].
  set (p' := if Nat.eqb (String.length k) 0 then S p else p + String.length k).
  destruct (find_from pat t f p') as [|[s' e'] r] eqn:E; constructor.
  assert (Hin : In (s', e') (find_from pat t f p')) by (rewrite E; left; reflexivity).
  apply find_from_span in Hin as (Hp & _). unfold span_before, p' in *. simpl.
  destruct (Nat.eqb (String.length k) 0) eqn:Ek;
    [apply Nat.eqb_eq in Ek | apply Nat.eqb_neq in Ek]; lia.
Qed.

(** The entries of [preview] come in text order and never overlap: each one
    ends no later than the next one starts, and starts strictly before it. *)
Theorem preview_in_text_order (d : dict) (t : string) (n : nat) :
  Sorted (fun a b => match_end a <= match_start b /\ match_start a < match_start b)
    (preview_with (compile_pattern (dict_keys d)) d t n).
Proof.
  unfold preview_with. eapply Sorted_map_rel; [|apply find_from_sorted].
  intros [s e] [s' e'] H. exact H.
Qed.

(** ** An empty table *)



(** ** Loading and combining the tables *)

Lemma upper_shift (c : ascii) :
  is_upper_c c = true -> is_upper_c (ascii_of_nat (nat_of_ascii c + 32)) = false.
Proof.
  unfold is_upper_c. intros E. apply andb_true_iff in E as [E1 E2].
  apply Nat.leb_le in E1, E2. rewrite nat_ascii_embedding by lia.
  apply andb_false_iff. right. apply Nat.leb_gt. lia.
Qed.

Lemma lower_c_idem (c : ascii) : lower_c (lower_c c) = lower_c c.
Proof.
  unfold lower_c at 2 3. destruct (is_upper_c c) eqn:E.
  - unfold lower_c. rewrite upper_shift by exact E. reflexivity.
  - unfold lower_c. rewrite E. reflexivity.
Qed.

Lemma str_lower_idem (s : string) : str_lower (str_lower s) = str_lower s.
Proof.
  unfold str_lower. induction s as [|c s IH]; simpl; [reflexivity|].
  rewrite lower_c_idem, IH. reflexivity.
Qed.

Lemma lowered_lower (s : string) : is_lowered (str_lower s) = true.
Proof. unfold is_lowered. rewrite str_lower_idem. apply String.eqb_refl. Qed.


Lemma find_app_first {A : Type} (f : A -> bool) (l l' : list A) :
  find f (app l l') = match find f l with Some x => Some x | None => find f l' end.
Proof. induction l as [|x r IH]; simpl; [reflexivity|]. destruct (f x); auto. Qed.

Lemma load_fold_get (raw acc : dict) (k : string) :
  dict_get k (fold_left (fun (acc : dict) (kv : string * string) =>
                           dict_set (str_lower (fst kv)) (snd kv) acc) raw acc) =
  first_some (last_entry k raw) (dict_get k acc).
Proof.
  revert acc. induction raw as [|[a b] r IH]; intros acc; [reflexivity|].
  simpl. rewrite IH. unfold last_entry. simpl. rewrite find_app_first.
  destruct (find _ (rev r)) as [[x y]|]; [reflexivity|]. simpl.
  destruct (String.eqb (str_lower a) k) eqn:E.
  - apply String.eqb_eq in E. subst k. rewrite dict_get_set_eq. reflexivity.
  - rewrite dict_get_set_neq; [reflexivity|]. intros H. subst k.
    rewrite String.eqb_refl in E. discriminate.
Qed.

Lemma in_dict_pop (kv : string * string) (k : string) (d : dict) : In kv (dict_pop k d) -> In kv d.
Proof.
  induction d as [|[k' v'] r IH]; simpl; [auto|].
  destruct (String.eqb k k'); simpl; intuition.
Qed.

Section DictForall.

Variable P : string * string -> Prop.

Lemma forall_set (k v : string) (d : dict) : Forall P d -> P (k, v) -> Forall P (dict_set k v d).
Proof.
  rewrite !Forall_forall. intros Hd Hkv kv Hin. apply in_dict_set in Hin as [->|Hin]; auto.
Qed.

Lemma forall_pop (k : string) (d : dict) : Forall P d -> Forall P (dict_pop k d).
Proof. rewrite !Forall_forall. intros Hd kv Hin. apply Hd. eapply in_dict_pop. exact Hin. Qed.

Lemma forall_update (d e : dict) : Forall P d -> Forall P e -> Forall P (dict_update d e).
Proof.
  revert d. induction e as [|[k v] r IH]; intros d Hd He; [exact Hd|].
  inversion He; subst. unfold dict_update. simpl. apply IH; [apply forall_set|]; assumption.
Qed.

End DictForall.

Lemma load_lowered (raw : dict) : Forall key_lowered (load_dict raw).
Proof.
  unfold load_dict. generalize (@Forall_nil _ key_lowered). generalize (@nil (string * string)).
  induction raw as [|[a b] r IH]; intros acc H; simpl; [exact H|].
  apply IH. apply forall_set; [exact H | apply lowered_lower].
Qed.

Lemma nodup_fold_set {A : Type} (f : A -> string * string) (l : list A) (d : dict) :
  NoDup (dict_keys d) ->
  NoDup (dict_keys (fold_left (fun (acc : dict) x => dict_set (fst (f x)) (snd (f x)) acc) l d)).
Proof.
  revert d. induction l as [|x r IH]; intros d H; simpl; [exact H|]. apply IH. apply nodup_set. exact H.
Qed.

Lemma load_nodup (raw : dict) : NoDup (dict_keys (load_dict raw)).
Proof.
  exact (nodup_fold_set (fun kv : string * string => (str_lower (fst kv), snd kv)) raw [] (NoDup_nil _)).
Qed.

Lemma months_nodup_fold (d : dict) :
  NoDup (dict_keys d) ->
  NoDup (dict_keys (fold_left (fun (d : dict) m => dict_set (month_abbrev m) m d) MONTHS d)).
Proof. exact (nodup_fold_set (fun m => (month_abbrev m, m)) MONTHS d). Qed.

Lemma dict_get_not_in (k : string) (d : dict) : ~ In k (dict_keys d) -> dict_get k d = None.
Proof.
  induction d as [|[k' v'] r IH]; simpl; [reflexivity|]. intros H.
  destruct (String.eqb k k') eqn:E; [apply String.eqb_eq in E; subst; tauto | apply IH; tauto].
Qed.


Lemma dict_get_update (k : string) (d e : dict) :
  NoDup (dict_keys e) -> dict_get k (dict_update d e) = first_some (dict_get k e) (dict_get k d).
Proof.
  revert d. induction e as [|[k' v'] r IH]; intros d H; [reflexivity|].
  inversion H as [|? ? Hk Hr]; subst.
  unfold dict_update. simpl. fold (dict_update (dict_set k' v' d) r). rewrite IH by exact Hr.
  destruct (String.eqb k k') eqn:E.
  - apply String.eqb_eq in E. subst k'.
    rewrite dict_get_not_in by exact Hk. rewrite dict_get_set_eq. reflexivity.
  - rewrite dict_get_set_neq by (apply String.eqb_neq; exact E). reflexivity.
Qed.

Lemma months_fold_get (d : dict) (k : string) :
  dict_get k (fold_left (fun (d : dict) m => dict_set (month_abbrev m) m d) MONTHS d) =
  first_some (month_entry k) (dict_get k d).
Proof.
  unfold month_entry. destruct (find (fun m => String.eqb (month_abbrev m) k) MONTHS) as [m|] eqn:E.
  - apply find_some in E as [Hm Hk]. apply String.eqb_eq in Hk. subst k.
    apply fold_set_member; [exact months_abbrev_nodup | exact Hm].
  - apply fold_set_other. intros m Hm Heq. apply (find_none _ _ E) in Hm.
    rewrite Heq, String.eqb_refl in Hm. discriminate.
Qed.

Lemma in_alt_combined (l acc : dict) (kv : string * string) :
  In kv (fold_left (fun (acc : dict) (kv : string * string) =>
                 if str_has "'" (fst kv) then dict_set (alt_apostrophe (fst kv)) (snd kv) acc
                 else acc) l acc) -> In kv acc \/ In kv l.
Proof.
  revert acc. induction l as [|[k v] r IH]; intros acc H; simpl in *; [auto|].
  apply IH in H as [H|H]; [|auto].
  destruct (str_has "'" k); [|auto].
  rewrite alt_apostrophe_id in H. apply in_dict_set in H as [H|H]; auto.
Qed.

Lemma combined_nodup (std inf sl : dict) (ui us : bool) :
  NoDup (dict_keys (build_combined (load_dict std) (if ui then load_dict inf else [])
                      (if us then load_dict sl else []) ui us)).
Proof.
  unfold build_combined.
  pose proof (months_nodup_fold _ (load_nodup std)) as H0.
  destruct ui, us; repeat apply nodup_update; exact H0.
Qed.

Lemma init_combined (std inf sl : dict) (ui us : bool) (k : string) :
  dict_get k (Engine.combined_dict (Engine.init std inf sl ui us)) =
  dict_get k (build_combined (load_dict std) (if ui then load_dict inf else [])
                (if us then load_dict sl else []) ui us).
Proof.
  unfold Engine.init, add_alt_apostrophes. simpl.
  apply update_agreeing. intros kv Hkv.
  apply in_alt_combined in Hkv as [[]|Hkv].
  destruct kv as [a b]. apply nodup_get; [apply combined_nodup | exact Hkv].
Qed.

(** [_load_dict_optimized] keeps, for each key up to case, the value of its
    last entry in the JSON object, and every key of the loaded table is
    lower-case. *)
Theorem load_dict_last_entry_wins (raw : dict) :
  (forall k, dict_get k (load_dict raw) = last_entry k raw) /\
  Forall (fun k => is_lowered k = true) (dict_keys (load_dict raw)).
Proof.
  split.
  - intros k. unfold load_dict. rewrite load_fold_get. destruct (last_entry k raw); reflexivity.
  - unfold dict_keys. apply Forall_map. apply load_lowered.
Qed.

Lemma combined_lookup (std inf sl : dict) (ui us : bool) (k : string) :
  dict_get k (Engine.combined_dict (Engine.init std inf sl ui us)) =
  first_some (if us then last_entry k sl else None)
    (first_some (if ui then last_entry k inf else None)
       (first_some (month_entry k) (last_entry k std))).
Proof.
  rewrite init_combined. unfold build_combined.
  assert (Hl : forall raw, dict_get k (load_dict raw) = last_entry k raw).
  { intros raw. unfold load_dict. rewrite load_fold_get. destruct (last_entry k raw); reflexivity. }
  assert (H0 : dict_get k (fold_left (fun (d : dict) m => dict_set (month_abbrev m) m d) MONTHS
                             (load_dict std)) = first_some (month_entry k) (last_entry k std))
    by (rewrite months_fold_get, Hl; reflexivity).
  destruct ui, us; cbv beta iota zeta; rewrite ?dict_get_update by apply load_nodup;
    rewrite ?Hl, ?H0; reflexivity.
Qed.

(** A lookup in the combined table built by [__init__]: a slang entry (when
    slang is on) wins over an informal entry (when informal is on), which
    wins over a month abbreviation, which wins over a standard entry; each
    file contributes the value of its last entry for the key up to case. *)
Theorem combined_lookup_priority (std inf sl : dict) (ui us : bool) (k : string) :
  dict_get k (Engine.combined_dict (Engine.init std inf sl ui us)) =
  first_some (if us then last_entry k sl else None)
    (first_some (if ui then last_entry k inf else None)
       (first_some (month_entry k) (last_entry k std))).
Proof. apply combined_lookup. Qed.

(** ** The reverse table built by [__init__] *)

Lemma safe_informal_nodup : NoDup (dict_keys SAFE_INFORMAL).
Proof. simpl. repeat constructor; simpl; intuition discriminate. Qed.

Lemma init_reverse_entry (std inf sl : dict) (ui us : bool) (e c : string) :
  dict_get e (Engine.reverse_dict (Engine.init std inf sl ui us)) = Some c ->
  (in_set e SAFE_CONTRACTIONS = true /\ is_lowered e = true /\ str_has "'" c = true /\
   2 < String.length c /\ exists x, In (c, x) (load_dict std) /\ str_lower x = e) \/
  (ui = true /\ dict_get e SAFE_INFORMAL = Some c).
Proof.
  rewrite init_reverse. unfold build_reverse_dict.
  set (rd0 := fold_left reverse_step (load_dict std) []).
  assert (Hrd0 : dict_get e rd0 = Some c ->
     in_set e SAFE_CONTRACTIONS = true /\ is_lowered e = true /\ str_has "'" c = true /\
     2 < String.length c /\ exists x, In (c, x) (load_dict std) /\ str_lower x = e).
  { intros G. pose proof (rev_inv_fold (load_dict std) [] [] rev_inv_nil e) as Hinv.
    fold rd0 in Hinv. simpl in Hinv. rewrite G in Hinv.
    destruct Hinv as [([c' x] & Hin & Hc & Hfst) _]. simpl in Hfst. subst c'.
    apply rev_candidate_expansion in Hc as [-> Hc].
    apply andb_true_iff in Hc as [Hc H3]. apply andb_true_iff in Hc as [H1 H2].
    apply Nat.ltb_lt in H3. repeat split; auto using lowered_lower. eauto. }
  destruct ui.
  - rewrite dict_get_update by exact safe_informal_nodup.
    destruct (dict_get e SAFE_INFORMAL) eqn:G; simpl.
    + intros H. injection H as ->. right. auto.
    + intros H. left. apply Hrd0. exact H.
  - intros H. left. apply Hrd0. exact H.
Qed.

(** Every entry of the reverse table built by [__init__] maps a lower-case
    member of [SAFE_CONTRACTIONS] to one of the lower-cased standard keys
    (which contains an apostrophe and is longer than two characters) whose
    value lower-cases to it, or, with informal contractions on, is an entry
    of [SAFE_INFORMAL].  The five members of [SAFE_CONTRACTIONS] written
    with a capital "I" never get an entry, whatever the tables. *)
Theorem init_reverse_table_contents (std inf sl : dict) (ui us : bool) :
  (forall e c, dict_get e (Engine.reverse_dict (Engine.init std inf sl ui us)) = Some c ->
     (in_set e SAFE_CONTRACTIONS = true /\ is_lowered e = true /\ str_has "'" c = true /\
      2 < String.length c /\ exists x, In (c, x) (load_dict std) /\ str_lower x = e) \/
     (ui = true /\ dict_get e SAFE_INFORMAL = Some c)) /\
  Forall (fun e => dict_get (str_lower e) (Engine.reverse_dict (Engine.init std inf sl ui us)) = None)
    ["I am"; "I have"; "I will"; "I would"; "I would have"].
Proof.
  split; [apply init_reverse_entry|].
  repeat constructor;
    match goal with |- dict_get ?e ?rd = None =>
      destruct (dict_get e rd) as [c|] eqn:G; [|reflexivity] end;
    exfalso; destruct (init_reverse_entry _ _ _ _ _ _ _ G) as [(Hs & _)|(_ & Hs)];
    vm_compute in Hs; discriminate.
Qed.

(** ** Invariants of the tables over a program run *)

Lemma in_keys_pop (z k : string) (d : dict) : In z (dict_keys (dict_pop k d)) -> In z (dict_keys d).
Proof.
  unfold dict_keys. intros H. apply in_map_iff in H as (kv & <- & H).
  apply in_map. eapply in_dict_pop. exact H.
Qed.

Lemma nodup_pop (k : string) (d : dict) : NoDup (dict_keys d) -> NoDup (dict_keys (dict_pop k d)).
Proof.
  induction d as [|[k' v'] r IH]; simpl; intros H; [constructor|].
  inversion H as [|? ? Hk Hr]; subst.
  destruct (String.eqb k k'); [exact Hr|]. simpl. constructor; [|apply IH; exact Hr].
  intros Hin. apply Hk. eapply in_keys_pop. exact Hin.
Qed.

Lemma forall_fold_set {A : Type} (P : string * string -> Prop) (f : A -> string * string) (l : list A) (d : dict) :
  (forall x, In x l -> P (f x)) -> Forall P d ->
  Forall P (fold_left (fun (acc : dict) x => dict_set (fst (f x)) (snd (f x)) acc) l d).
Proof.
  revert d. induction l as [|x r IH]; intros d Hl Hd; simpl; [exact Hd|].
  apply IH; [intros y Hy; apply Hl; right; exact Hy|].
  destruct (f x) as [a b] eqn:E. simpl. apply forall_set; [exact Hd|]. rewrite <- E. apply Hl. left. reflexivity.
Qed.

Lemma combined_lowered (std inf sl : dict) (ui us : bool) :
  Forall key_lowered (build_combined (load_dict std) (if ui then load_dict inf else [])
                        (if us then load_dict sl else []) ui us).
Proof.
  unfold build_combined.
  assert (H0 : Forall key_lowered
            (fold_left (fun (d : dict) m => dict_set (month_abbrev m) m d) MONTHS (load_dict std))).
  { apply (forall_fold_set key_lowered (fun m => (month_abbrev m, m))); [|apply load_lowered].
    intros m Hm. repeat destruct Hm as [<-|Hm]; try reflexivity. destruct Hm. }
  destruct ui, us; cbv beta iota zeta; repeat apply forall_update; auto using load_lowered.
Qed.

Lemma reverse_step_inv (rd : dict) (kv : string * string) :
  Forall key_lowered rd -> Forall value_has_apostrophe rd ->
  Forall key_lowered (reverse_step rd kv) /\ Forall value_has_apostrophe (reverse_step rd kv).
Proof.
  intros H1 H2. destruct kv as [c x]. unfold reverse_step.
  destruct (in_set (str_lower x) SAFE_CONTRACTIONS && str_has "'" c && Nat.ltb 2 (String.length c)) eqn:C;
    [|auto].
  apply andb_true_iff in C as [C _]. apply andb_true_iff in C as [_ Hc].
  assert (Hs : Forall key_lowered (dict_set (str_lower x) c rd) /\
               Forall value_has_apostrophe (dict_set (str_lower x) c rd))
    by (split; apply forall_set; auto; apply lowered_lower).
  destruct (dict_get (str_lower x) rd); [destruct (_ || _)|]; auto.
Qed.

Lemma reverse_fold_inv (l rd : dict) :
  Forall key_lowered rd -> Forall value_has_apostrophe rd ->
  Forall key_lowered (fold_left reverse_step l rd) /\
  Forall value_has_apostrophe (fold_left reverse_step l rd).
Proof.
  revert rd. induction l as [|kv r IH]; intros rd H1 H2; simpl; [auto|].
  destruct (reverse_step_inv rd kv H1 H2). apply IH; assumption.
Qed.

Lemma forall_alt_combined (P : string * string -> Prop) (cd : dict) :
  Forall P cd ->
  Forall P (fold_left (fun (acc : dict) (kv : string * string) =>
                 if str_has "'" (fst kv) then dict_set (alt_apostrophe (fst kv)) (snd kv) acc
                 else acc) cd []).
Proof.
  rewrite !Forall_forall. intros H kv Hin. apply in_alt_combined in Hin as [[]|Hin]. auto.
Qed.

Lemma forall_alt_reverse (P : string * string -> Prop) (rd : dict) :
  Forall P rd ->
  Forall P (fold_left (fun (acc : dict) (kv : string * string) =>
                 if str_has "'" (snd kv) then dict_set (fst kv) (alt_apostrophe (snd kv)) acc
                 else acc) rd []).
Proof.
  rewrite !Forall_forall. intros H kv Hin. apply in_alt_reverse in Hin as [[]|Hin]. auto.
Qed.

Lemma init_tables_inv (std inf sl : dict) (ui us : bool) : tables_inv (Engine.init std inf sl ui us).
Proof.
  unfold tables_inv, Engine.init, add_alt_apostrophes. cbn [fst snd Engine.combined_dict Engine.reverse_dict].
  pose proof (combined_lowered std inf sl ui us) as Hc.
  assert (Hr : Forall key_lowered (build_reverse_dict (load_dict std) ui) /\
               Forall value_has_apostrophe (build_reverse_dict (load_dict std) ui)).
  { unfold build_reverse_dict.
    destruct (reverse_fold_inv (load_dict std) [] (Forall_nil _) (Forall_nil _)) as [H1 H2].
    destruct ui; [|auto].
    split; apply forall_update; auto; repeat constructor. }
  destruct Hr as [Hr1 Hr2].
  split; [apply nodup_update, combined_nodup|].
  split; [apply forall_update; [exact Hc | apply forall_alt_combined; exact Hc]|].
  split; apply forall_update; auto; apply forall_alt_reverse; assumption.
Qed.

Lemma fix_tables (st : Engine.state) (t : string) :
  Engine.combined_dict (snd (Engine.fix_ st t)) = Engine.combined_dict st /\
  Engine.reverse_dict (snd (Engine.fix_ st t)) = Engine.reverse_dict st.
Proof.
  unfold Engine.fix_, Engine.get_pattern.
  destruct (dict_get t (Engine.fix_cache st)); [auto|].
  destruct (Engine.pattern_cache st); cbn [fst snd Engine.set_pattern Engine.combined_dict];
    match goal with |- context [fix_with ?p ?d t] => destruct (fix_with p d t) end; auto.
Qed.

Lemma contract_tables (st : Engine.state) (t : string) :
  Engine.combined_dict (snd (Engine.contract st t)) = Engine.combined_dict st /\
  Engine.reverse_dict (snd (Engine.contract st t)) = Engine.reverse_dict st.
Proof.
  unfold Engine.contract, Engine.get_reverse_pattern.
  destruct (dict_get t (Engine.contract_cache st)); [auto|].
  destruct (Engine.reverse_pattern_cache st);
    cbn [fst snd Engine.set_reverse_pattern Engine.reverse_dict];
    match goal with |- context [contract_with ?p ?d t] => destruct (contract_with p d t) end; auto.
Qed.

Lemma preview_tables (st : Engine.state) (t : string) (n : nat) :
  Engine.combined_dict (snd (Engine.preview st t n)) = Engine.combined_dict st /\
  Engine.reverse_dict (snd (Engine.preview st t n)) = Engine.reverse_dict st.
Proof. unfold Engine.preview, Engine.get_pattern. destruct (Engine.pattern_cache st); auto. Qed.

Lemma tables_inv_same (st st' : Engine.state) :
  Engine.combined_dict st' = Engine.combined_dict st /\ Engine.reverse_dict st' = Engine.reverse_dict st ->
  tables_inv st -> tables_inv st'.
Proof. unfold tables_inv. intros [-> ->]. auto. Qed.

Lemma add_tables_inv (st : Engine.state) (c e : string) :
  tables_inv st -> tables_inv (Engine.add_contraction st c e).
Proof.
  intros (H1 & H2 & H3 & H4). unfold tables_inv, Engine.add_contraction.
  cbn [Engine.combined_dict Engine.reverse_dict]. rewrite alt_apostrophe_id.
  split; [apply nodup_set, nodup_set; exact H1|].
  split; [apply forall_set; [apply forall_set; [exact H2|]|]; apply lowered_lower|].
  destruct (str_has "'" (str_lower c) && Nat.ltb 1 (String.length (str_lower c))) eqn:C; [|auto].
  apply andb_true_iff in C as [C _].
  assert (Hs : Forall key_lowered (dict_set (str_lower e) (str_lower c) (Engine.reverse_dict st)) /\
               Forall value_has_apostrophe (dict_set (str_lower e) (str_lower c) (Engine.reverse_dict st)))
    by (split; apply forall_set; auto; apply lowered_lower).
  destruct (dict_get (str_lower e) (Engine.reverse_dict st));
    [destruct (Nat.ltb _ _)|]; tauto.
Qed.

Lemma remove_tables_inv (st : Engine.state) (c : string) :
  tables_inv st -> tables_inv (Engine.remove_contraction st c).
Proof.
  intros (H1 & H2 & H3 & H4). unfold tables_inv, Engine.remove_contraction.
  cbn [Engine.combined_dict Engine.reverse_dict].
  split; [apply nodup_pop, nodup_pop; exact H1|].
  split; [apply forall_pop, forall_pop; exact H2|].
  destruct (dict_get (str_lower c) (Engine.combined_dict st)) as [x|]; [|auto].
  destruct (negb (String.eqb x "")); [|auto].
  destruct (dict_get (str_lower x) (Engine.reverse_dict st)) as [v|]; [|auto].
  destruct (String.eqb v (str_lower c)); [|auto].
  split; apply forall_pop; assumption.
Qed.

Lemma reachable_tables_inv (st : Engine.state) : reachable st -> tables_inv st.
Proof.
  induction 1.
  - apply init_tables_inv.
  - apply (tables_inv_same st); [apply fix_tables | assumption].
  - apply (tables_inv_same st); [apply contract_tables | assumption].
  - apply (tables_inv_same st); [apply preview_tables | assumption].
  - apply add_tables_inv. assumption.
  - apply remove_tables_inv. assumption.
Qed.

(** Whatever calls are made after construction, every key of both tables
    is lower-case and every contraction the reverse table maps to contains
    an apostrophe. *)
Theorem reachable_tables_shape (st : Engine.state) :
  reachable st ->
  Forall (fun k => is_lowered k = true) (dict_keys (Engine.combined_dict st)) /\
  Forall (fun k => is_lowered k = true) (dict_keys (Engine.reverse_dict st)) /\
  Forall (fun c => str_has "'" c = true) (map snd (Engine.reverse_dict st)).
Proof.
  intros H. destruct (reachable_tables_inv st H) as (_ & H2 & H3 & H4).
  unfold dict_keys. split; [|split]; apply Forall_map; assumption.
Qed.

Lemma reachable_tables_shape_witness :
  let st := Engine.add_contraction (Engine.init sample_standard [] [] true true) "Y'ALL" "you all" in
  reachable st /\
  Forall (fun k => is_lowered k = true) (dict_keys (Engine.combined_dict st)) /\
  Forall (fun k => is_lowered k = true) (dict_keys (Engine.reverse_dict st)) /\
  Forall (fun c => str_has "'" c = true) (map snd (Engine.reverse_dict st)).
Proof.
  assert (H : reachable (Engine.add_contraction (Engine.init sample_standard [] [] true true)
                           "Y'ALL" "you all")) by (apply reach_add; apply reach_init).
  split; [exact H | exact (reachable_tables_shape _ H)].
Defined.





(** ** Adding and removing an entry *)

(** [add_contraction] makes the lower-cased contraction map to the given
    expansion and leaves every other key of the combined table as it
    was. *)
Theorem add_then_lookup (st : Engine.state) (c e : string) :
  dict_get (str_lower c) (Engine.combined_dict (Engine.add_contraction st c e)) = Some e /\
  forall k, k <> str_lower c ->
    dict_get k (Engine.combined_dict (Engine.add_contraction st c e)) =
    dict_get k (Engine.combined_dict st).
Proof.
  unfold Engine.add_contraction. cbn [Engine.combined_dict]. rewrite alt_apostrophe_id.
  split; [apply dict_get_set_eq|].
  intros k Hk. rewrite !dict_get_set_neq by exact Hk. reflexivity.
Qed.

(** On a state a program reaches, [remove_contraction] leaves no entry for
    the lower-cased contraction in the combined table, and every other key
    keeps its entry. *)
Theorem remove_then_lookup (st : Engine.state) (c : string) :
  reachable st ->
  dict_get (str_lower c) (Engine.combined_dict (Engine.remove_contraction st c)) = None /\
  forall k, k <> str_lower c ->
    dict_get k (Engine.combined_dict (Engine.remove_contraction st c)) =
    dict_get k (Engine.combined_dict st).
Proof.
  intros H. destruct (reachable_tables_inv st H) as (Hnd & _).
  unfold Engine.remove_contraction. cbn [Engine.combined_dict]. rewrite alt_apostrophe_id.
  split; [apply dict_get_pop_eq, nodup_pop; exact Hnd|].
  intros k Hk. rewrite !dict_get_pop_neq by exact Hk. reflexivity.
Qed.

Lemma remove_then_lookup_witness :
  reachable (Engine.init sample_standard [] [] true true) /\
  dict_get "can't" (Engine.combined_dict
    (Engine.remove_contraction (Engine.init sample_standard [] [] true true) "CAN'T")) = None.
Proof.
  assert (H : reachable (Engine.init sample_standard [] [] true true)) by apply reach_init.
  split; [exact H | exact (proj1 (remove_then_lookup _ "CAN'T" H))].
Defined.

(** ** Month abbreviations in the constructed table *)

Lemma month_entry_abbrev (m : string) : In m MONTHS -> month_entry (month_abbrev m) = Some m.
Proof. simpl. intros H. repeat destruct H as [<-|H]; try reflexivity. destruct H. Qed.

(** C4 (amended): [MONTHS] lists eleven months (May is absent) with distinct
    abbreviations; [__init__] writes each abbreviation into the combined
    table after the standard entries, so a lookup of it gives the slang
    entry when slang is on and has one, else the informal entry when
    informal is on and has one, else the month name, whatever the standard
    table holds. *)
Theorem C4_eleven_month_entries (std inf sl : dict) (use_informal use_slang : bool)
    (m : string) :
  In m MONTHS ->
  List.length MONTHS = 11 /\ ~ In "may" MONTHS /\ NoDup (map month_abbrev MONTHS) /\
  dict_get (month_abbrev m)
    (Engine.combined_dict (Engine.init std inf sl use_informal use_slang)) =
  first_some (if use_slang then last_entry (month_abbrev m) sl else None)
    (first_some (if use_informal then last_entry (month_abbrev m) inf else None) (Some m)).
Proof.
  intros Hm. split; [reflexivity|]. split; [simpl; intuition discriminate|].
  split; [exact months_abbrev_nodup|].
  rewrite combined_lookup, (month_entry_abbrev m Hm). reflexivity.
Qed.

Lemma C4_eleven_month_entries_witness :
  dict_get "jan." (Engine.combined_dict (Engine.init sample_standard [] [] true true))
    = Some "january" /\
  dict_get "jan." (Engine.combined_dict
    (Engine.init sample_standard [] [("Jan.", "just a note")] true true)) = Some "just a note".
Proof.
  assert (Hm : In "january" MONTHS) by (simpl; auto).
  destruct (C4_eleven_month_entries sample_standard [] [] true true "january" Hm)
    as (_ & _ & _ & E1).
  destruct (C4_eleven_month_entries sample_standard [] [("Jan.", "just a note")] true true
              "january" Hm) as (_ & _ & _ & E2).
  change "jan."%string with (month_abbrev "january").
  split; [rewrite E1 | rewrite E2]; reflexivity.
Defined.

(** ** A second pass of [fix] *)

Lemma match_at_occurs (pat : pattern) (t : string) (p : nat) (k : string) :
  match_at pat t p = Some k -> occurs_ci k t p = true.
Proof.
  unfold match_at. destruct (first_ok (apos_ok t p) (apos_alts pat)) as [ka|] eqn:Ea.
  - intros H. injection H as <-. apply first_ok_some in Ea as [_ Hok].
    apply apos_ok_occurs. exact Hok.
  - intros H. apply first_ok_some in H as [_ Hok]. apply word_ok_occurs. exact Hok.
Qed.

(** When the callback returns every match unchanged, [sub] rebuilds the
    text. *)
Lemma splice_find_from_id (repl : string -> option string) (pat : pattern) (t : string)
    (fuel p pos : nat) :
  pos <= p ->
  (forall s e, In (s, e) (find_from pat t fuel p) -> repl (str_slice t s e) = Some (str_slice t s e)) ->
  splice repl t pos (find_from pat t fuel p) = Some (str_slice t pos (String.length t)).
Proof.
  revert p pos. induction fuel as [|f IH]; intros p pos Hp H; simpl; [reflexivity|].
  simpl in H. destruct (Nat.ltb (String.length t) p) eqn:Elt; [reflexivity|].
  apply Nat.ltb_ge in Elt.
  destruct (match_at pat t p) as [k|] eqn:Em.
  - simpl. rewrite (H p (p + String.length k) (or_introl eq_refl)).
    rewrite (IH _ (p + String.length k)); [| destruct (Nat.eqb (String.length k) 0) eqn:Ek; [apply Nat.eqb_eq in Ek|]; lia
                                         | intros s e Hin; apply H; right; exact Hin].
    destruct (occurs_span _ _ _ (match_at_occurs _ _ _ _ Em) Elt) as (Hle & _).
    destruct (slice_three t pos p (p + String.length k) (String.length t)) as [Hs _]; try lia.
    rewrite Hs. reflexivity.
  - apply IH; [lia | exact H].
Qed.

(** C6 (amended): [fix] makes one left-to-right pass and does not re-scan
    its replacements, so it is not idempotent in general.  A text on which
    the callback returns every match unchanged (no match at all, or only
    tokens kept as possessive or mapped to themselves) is a fixed point of
    [fix]; so [fix(fix(t)) == fix(t)] holds whenever that is true of
    [fix(t)].  No condition on the expansions alone ensures it: with a table
    none of whose expansions contains a match, a match can still straddle a
    replacement and the text around it, and the second pass changes the
    text again. *)
Theorem C6_fix_second_pass (d : dict) :
  (forall u,
     (forall s e, In (s, e) (finditer (compile_pattern (dict_keys d)) u) ->
        replace_match d (str_slice u s e) = Some (str_slice u s e)) ->
     fix_text d u = Some u) /\
  (forall t u, fix_text d t = Some u ->
     (forall s e, In (s, e) (finditer (compile_pattern (dict_keys d)) u) ->
        replace_match d (str_slice u s e) = Some (str_slice u s e)) ->
     fix_text d u = fix_text d t) /\
  (let tbl := [("x'y", "z"); ("a z", "q")] in
   Forall (fun kv => finditer (compile_pattern (dict_keys tbl)) (snd kv) = []) tbl /\
   fix_text tbl "a x'y" = Some "a z" /\ fix_text tbl "a z" = Some "q").
Proof.
  assert (Hfix : forall u,
     (forall s e, In (s, e) (finditer (compile_pattern (dict_keys d)) u) ->
        replace_match d (str_slice u s e) = Some (str_slice u s e)) ->
     fix_text d u = Some u).
  { intros u H. unfold fix_text, fix_with, re_sub. unfold finditer in *.
    rewrite (splice_find_from_id _ _ _ _ 0 0 (le_n 0) H).
    unfold str_slice. rewrite Nat.sub_0_r, substring_full. reflexivity. }
  split; [exact Hfix|]. split.
  - intros t u Ht Hu. rewrite Ht. apply Hfix. exact Hu.
  - vm_compute. repeat constructor.
Qed.

Lemma C6_fix_second_pass_witness :
  fix_text [("it's", "it is"); ("john's", "john is")] "It's John's car" = Some "It is John's car" /\
  fix_text [("it's", "it is"); ("john's", "john is")] "It is John's car" = Some "It is John's car".
Proof.
  assert (H1 : fix_text [("it's", "it is"); ("john's", "john is")] "It's John's car"
               = Some "It is John's car") by (vm_compute; reflexivity).
  split; [exact H1|].
  rewrite <- H1. apply (proj1 (proj2 (C6_fix_second_pass [("it's", "it is"); ("john's", "john is")])) _ _ H1).
  intros s e Hin. vm_compute in Hin. destruct Hin as [Hin|[]].
  injection Hin as <- <-. vm_compute. reflexivity.
Defined.
